(** * taskco: task lifecycle, priority queue and dispatcher

    A shallow embedding of [lib/task.js], of the Redis transport
    ([TransportRedis]) and of the dispatcher ([Dispatcher]) of taskco,
    with the properties of the job-matching and event-routing engine
    stated over it.

    Conventions of the embedding.
    - The Redis keyspace is a record of finite maps, one per Redis type
      (hashes, lists, sorted sets, expiries).  A command never meets a
      key of another type, so Redis' WRONGTYPE replies do not occur;
      connection failures are not modelled either: every store command
      resolves.  Sorted sets follow the Redis command reference: members
      are ordered by score and, for equal scores, by their bytes.
    - Promises are computations in a state-and-rejection monad over the
      [World]: [when/sequence] runs its tasks in order and stops at the
      first rejection.  Every command sent, every event announced and
      every deferred call is recorded, in order, in the [trace].
    - [emit] of Node's EventEmitter runs the listeners, which are the
      user's code: in the methods of a task it is recorded in the trace;
      in [routeMessage], whose [try] is there for it, it is any function
      that may throw.
    - JavaScript numbers that only count (attempts, maxAttempts,
      removeAfter, and the priority when it is a number) are [Z]; the
      progress value, which is multiplied and divided, is a binary64
      [float], with the operations of IEEE 754.
    - A plain object used as a map is a finite map of its own
      properties.  Where it is read under a name that comes from
      outside (the id of a message in the watch list, the name given as
      a priority in the table of levels), a name it does not have falls
      back on the names that every object inherits
      ([JS.Object_prototype]); the waitlist and the procedures are
      keyed by the types of the registered procedures.
    - What [JSON.stringify] writes is given by the value it reads back
      as: the same record, with [null] where a number was not finite. *)

From Stdlib Require Import PrimFloat.
From Stdlib Require FloatAxioms SpecFloat FloatOps.
From Stdlib Require Import ZArith QArith Lia Bool List Sorted OrdersEx Ascii.
From stdpp Require Import base option list strings gmap.

Local Close Scope Q_scope.
Local Open Scope Z_scope.

(** ** Redis sorted sets *)

Module Redis.

(** A sorted set is the list of its (score, member) pairs in Redis'
    order: by score, and for equal scores by the bytes of the member
    (lexicographically). *)
Definition zset : Type := list (Z * string).

Definition member_ltb (m1 m2 : string) : bool :=
  match String_as_OT.compare m1 m2 with Lt => true | _ => false end.

Definition entry_ltb (e1 e2 : Z * string) : bool :=
  (e1.1 <? e2.1) || ((e1.1 =? e2.1) && member_ltb e1.2 e2.2).

Definition entry_lt (e1 e2 : Z * string) : Prop :=
  e1.1 < e2.1 ∨ (e1.1 = e2.1 ∧ String_as_OT.lt e1.2 e2.2).

(** ZREM key member *)
Fixpoint zrem (member : string) (z : zset) : zset :=
  match z with
  | [] => []
  | e :: z' =>
      if String.eqb e.2 member then zrem member z' else e :: zrem member z'
  end.

(** Position of a new entry: before the first entry that is greater. *)
Fixpoint zinsert (e : Z * string) (z : zset) : zset :=
  match z with
  | [] => [e]
  | e' :: z' => if entry_ltb e e' then e :: z else e' :: zinsert e z'
  end.

(** ZADD key score member: adds the member, or updates its score
    when it is already there. *)
Definition zadd (score : Z) (member : string) (z : zset) : zset :=
  zinsert (score, member) (zrem member z).

(** ZRANGE key 0 0 *)
Definition zrange_0_0 (z : zset) : list string :=
  match z with
  | [] => []
  | e :: _ => [e.2]
  end.

(** ZREMRANGEBYRANK key 0 0 *)
Definition zremrangebyrank_0_0 (z : zset) : zset := tail z.

Definition members (z : zset) : list string := z.*2.

(** Well-formed sorted sets: in order, and no member twice. *)
Definition zset_wf (z : zset) : Prop :=
  StronglySorted entry_lt z ∧ NoDup (members z).

End Redis.

(** ** JavaScript numbers *)

(** The value of a decimal literal, as [parseFloat] reads it. *)
Inductive jsnum : Type :=
| Fin (q : Q)
| PosInf
| NegInf
| NaN.

Module JS.

Definition hundred : float := 100%float.

(** [Math.min(a, b)]: NaN when either argument is; of two zeros, the
    negative one. *)
Definition Math_min (a b : float) : float :=
  if is_nan a || is_nan b then nan
  else if (b <? a)%float then b
  else if (b =? a)%float then (if get_sign a then a else b)
  else a.

(** How 100 compares with [x], by the specification of binary64:
    [None] when [x] is NaN. *)
Definition compare_100 (x : float) : option comparison :=
  SpecFloat.SFcompare (FloatOps.Prim2SF 100) (FloatOps.Prim2SF x).

(** The names every object inherits from [Object.prototype]; each of
    them is defined, and none is a number. *)
Definition Object_prototype : list string :=
  ["constructor"; "toString"; "toLocaleString"; "valueOf";
   "hasOwnProperty"; "isPrototypeOf"; "propertyIsEnumerable";
   "__defineGetter__"; "__defineSetter__"; "__lookupGetter__";
   "__lookupSetter__"; "__proto__"].

End JS.

(** ** Data model *)

(** [metadata.state] *)
Inductive State : Type := Waiting | Active | Success | Failure.

(** The argument of [priority(value)]: a level name or a number.  A
    string that reads as a number takes the number's path in the source
    ([isNaN] is false for it) and is given here as [PNum]. *)
Inductive PriorityArg : Type :=
| PName (name : string)
| PNum (n : Z).

(** [metadata.priority] when it is defined: a number (an integer, as
    the priorities of the spec are), NaN, or [null], which is what a
    NaN priority reads back as from a stored record. *)
Inductive Priority : Type :=
| PriorityOf (n : Z)
| PriorityNaN
| PriorityNull.

(** [Number(priority)]: [null] is 0. *)
Definition Number_of (p : Priority) : Priority :=
  match p with
  | PriorityNull => PriorityOf 0
  | _ => p
  end.

(** [task.metadata].  [None] stands for a key that is undefined
    ([m_priority], [m_maxAttempts], [m_removeAfter], [m_broadcastAll],
    [m_error]) and for [null] in [m_progress]. *)
Record Metadata : Type := {
  m_created : Z;
  m_state : State;
  m_progress : option float;
  m_broadcasts : list string;
  m_attempts : Z;
  m_priority : option Priority;
  m_maxAttempts : option Z;
  m_removeAfter : option Z;
  m_broadcastAll : option bool;
  m_error : option string
}.

(** The [options] argument of the constructor: any metadata key may be
    given (and then overrides the constructor's initial value). *)
Record Options : Type := {
  o_created : option Z;
  o_state : option State;
  o_progress : option (option float);
  o_broadcasts : option (list string);
  o_attempts : option Z;
  o_priority : option PriorityArg;
  o_maxAttempts : option Z;
  o_removeAfter : option Z;
  o_broadcastAll : option bool;
  o_error : option string
}.

Definition no_options : Options :=
  {| o_created := None; o_state := None; o_progress := None;
     o_broadcasts := None; o_attempts := None; o_priority := None;
     o_maxAttempts := None; o_removeAfter := None; o_broadcastAll := None;
     o_error := None |}.

(** [factory.procedures[type].defaults]: the keys a default can fill,
    those that may be undefined in a task's metadata.  A default
    priority is a number. *)
Record Defaults : Type := {
  d_priority : option Z;
  d_maxAttempts : option Z;
  d_removeAfter : option Z;
  d_broadcastAll : option bool
}.

Definition no_defaults : Defaults :=
  {| d_priority := None; d_maxAttempts := None; d_removeAfter := None;
     d_broadcastAll := None |}.

(** The part of the factory the task and the dispatcher read. *)
Record Factory : Type := {
  prefix : string;
  procedures : gmap string Defaults
}.

(** [task.data]: the caller's payload, with its optional [uid]. *)
Record Data : Type := {
  data_uid : option string;
  data_payload : string
}.

(** A task object; [t_id], [t_key], [t_type], [t_data], [t_metadata],
    [t_uid] are the keys the constructor sets. *)
Record Task : Type := {
  t_id : string;
  t_key : string;
  t_type : string;
  t_data : Data;
  t_metadata : Metadata;
  t_uid : option string
}.

(** Values of the fields of a Redis hash. *)
Inductive FieldValue : Type :=
| FString (s : string)
| FData (d : Data)
| FMetadata (m : Metadata).

(** The [{id, event, args}] envelope of the events channel; [args] is
    the caller's [arguments] object, so it starts with the event. *)
Inductive Arg : Type :=
| AStr (s : string)
| ANum (n : float)
| ANull.

Record Envelope : Type := {
  e_id : string;
  e_event : string;
  e_args : list Arg
}.

(** ** JSON *)

Module JSON.

(** A number as [JSON.stringify] writes it and [JSON.parse] reads it
    back: [null] for NaN and the infinities, 0 for -0. *)
Definition number (x : float) : option float :=
  if is_finite x then Some (if is_zero x then 0%float else x) else None.

Definition priority (p : Priority) : Priority :=
  match p with
  | PriorityNaN => PriorityNull
  | _ => p
  end.

(** [JSON.stringify(metadata)]; an undefined key is left out. *)
Definition metadata (m : Metadata) : Metadata :=
  {| m_created := m_created m; m_state := m_state m;
     m_progress := m_progress m ≫= number;
     m_broadcasts := m_broadcasts m; m_attempts := m_attempts m;
     m_priority := priority <$> m_priority m;
     m_maxAttempts := m_maxAttempts m; m_removeAfter := m_removeAfter m;
     m_broadcastAll := m_broadcastAll m; m_error := m_error m |}.

(** [JSON.stringify(value)] for the value of a hash field. *)
Definition stringify (v : FieldValue) : FieldValue :=
  match v with
  | FMetadata m => FMetadata (metadata m)
  | _ => v
  end.

(** [JSON.stringify] of the [args] of an envelope. *)
Definition args (l : list Arg) : list Arg :=
  (λ a, match a with
        | ANum x => from_option ANum ANull (number x)
        | _ => a
        end) <$> l.

End JSON.

(** ** The store and the world *)

Record Store : Type := {
  hashes : gmap string (gmap string FieldValue);
  lists : gmap string (list string);
  zsets : gmap string Redis.zset;
  expires : gmap string Z
}.

Definition empty_store : Store :=
  {| hashes := ∅; lists := ∅; zsets := ∅; expires := ∅ |}.

(** A team of workers waiting for a job, by name. *)
Record Team : Type := {
  team_name : string;
  team_tag : nat
}.

(** Calls that run later ([setTimeout], [process.nextTick]) or whose
    promise the caller does not wait for. *)
Inductive Deferred : Type :=
| AnnounceRemove (id : string)
| IgnoreTask (id : string)
| GetNextJob (type : string).

(** What is thrown, or what a promise is rejected with. *)
Inductive Error : Type :=
| DuplicateKey (type uid : string)
| TypeError (what : string)
| SyntaxError (what : string)
| Thrown (what : string).

(** What a run does to the outside, in order. *)
Inductive Effect : Type :=
| DEL (key : string)
| HSET (key field : string) (v : FieldValue)
| HMSET (key : string) (fields : list (string * FieldValue))
| HDEL (key : string) (fields : list string)
| RPUSH (key : string) (values : list string)
| ZADD (key : string) (entries : list (Z * string))
| EXPIRE (key : string) (seconds : Z)
| BLPOP (key : string)
| ZPOP (key : string)
| PUBLISH (channel : string) (message : Envelope)
| SUBSCRIBE (channel : string)
| Emit (id event : string) (args : list Arg)
| SetTimeout (ms : Z) (call : Deferred)
| NextTick (call : Deferred)
| Delegate (team : Team) (job : option string)
| ConsoleLog (what : string) (err : Error).

(** The store, the dispatcher's fields ([waitlist], [tasks],
    [subscribed]), the calls of [getNextJob] waiting for the event loop
    ([ticks]) and the effects so far.  [tasks] holds the watched tasks
    by id; the ids are the factory's, and [__proto__], the one name
    under which an assignment defines no property, is not among
    them. *)
Record World : Type := {
  store : Store;
  waitlist : gmap string (list Team);
  tasks : gmap string Task;
  subscribed : bool;
  ticks : list string;
  trace : list Effect
}.

Definition empty_world : World :=
  {| store := empty_store; waitlist := ∅; tasks := ∅; subscribed := false;
     ticks := []; trace := [] |}.

Definition with_store (f : Store → Store) (w : World) : World :=
  {| store := f (store w); waitlist := waitlist w; tasks := tasks w;
     subscribed := subscribed w; ticks := ticks w; trace := trace w |}.

Definition with_waitlist (f : gmap string (list Team) → gmap string (list Team))
    (w : World) : World :=
  {| store := store w; waitlist := f (waitlist w); tasks := tasks w;
     subscribed := subscribed w; ticks := ticks w; trace := trace w |}.

Definition with_tasks (f : gmap string Task → gmap string Task) (w : World) : World :=
  {| store := store w; waitlist := waitlist w; tasks := f (tasks w);
     subscribed := subscribed w; ticks := ticks w; trace := trace w |}.

Definition with_subscribed (b : bool) (w : World) : World :=
  {| store := store w; waitlist := waitlist w; tasks := tasks w;
     subscribed := b; ticks := ticks w; trace := trace w |}.

Definition with_ticks (f : list string → list string) (w : World) : World :=
  {| store := store w; waitlist := waitlist w; tasks := tasks w;
     subscribed := subscribed w; ticks := f (ticks w); trace := trace w |}.

Definition log (e : Effect) (w : World) : World :=
  {| store := store w; waitlist := waitlist w; tasks := tasks w;
     subscribed := subscribed w; ticks := ticks w; trace := trace w ++ [e] |}.

(** ** Promises *)

(** How a promise settles; [Pending] is a promise that never does
    (a blocking pop on an empty list). *)
Inductive Outcome (A : Type) : Type :=
| Resolved (a : A)
| Rejected (e : Error)
| Pending.
Arguments Resolved {A} a.
Arguments Rejected {A} e.
Arguments Pending {A}.

Definition Promise (A : Type) : Type := World → Outcome A * World.

Definition resolve {A} (a : A) : Promise A := λ w, (Resolved a, w).
Definition reject {A} (e : Error) : Promise A := λ w, (Rejected e, w).

Definition then_ {A B} (p : Promise A) (k : A → Promise B) : Promise B :=
  λ w, match p w with
       | (Resolved a, w') => k a w'
       | (Rejected e, w') => (Rejected e, w')
       | (Pending, w') => (Pending, w')
       end.

Notation "'let!' x ':=' p 'in' k" := (then_ p (λ x, k))
  (at level 10, x name, p at level 100, k at level 200).
Notation "p '>>>' k" := (then_ p (λ _, k))
  (at level 62, right associativity).

Definition effect (e : Effect) : Promise unit := λ w, (Resolved tt, log e w).
Definition update_store (f : Store → Store) : Promise unit :=
  λ w, (Resolved tt, with_store f w).
Definition update {A} (f : World → World) (a : A) : Promise A :=
  λ w, (Resolved a, f w).
Definition read {A} (f : World → A) : Promise A := λ w, (Resolved (f w), w).

(** Replies of the store. *)
#[local] Unset Elimination Schemes.
Inductive Reply : Type :=
| RNil
| ROk
| RStr (s : string)
| RList (l : list string)
| RSeq (results : list Reply).
#[local] Set Elimination Schemes.

(** [when/sequence]: runs the tasks one after the other on the same
    argument and resolves to the array of their results. *)
Fixpoint sequence {C} (tasks : list (C → Promise Reply)) (c : C)
    : Promise (list Reply) :=
  match tasks with
  | [] => resolve []
  | t :: rest =>
      let! r := t c in
      let! rs := sequence rest c in
      resolve (r :: rs)
  end.

(** ** The Redis transport *)

Module TransportRedis.

Definition hash_at (key : string) (s : Store) : gmap string FieldValue :=
  default ∅ (hashes s !! key).
Definition list_at (key : string) (s : Store) : list string :=
  default [] (lists s !! key).
Definition zset_at (key : string) (s : Store) : Redis.zset :=
  default [] (zsets s !! key).

Definition set_hash (key : string) (h : gmap string FieldValue) (s : Store) : Store :=
  {| hashes := <[key := h]> (hashes s); lists := lists s;
     zsets := zsets s; expires := expires s |}.
Definition set_list (key : string) (l : list string) (s : Store) : Store :=
  {| hashes := hashes s; lists := <[key := l]> (lists s);
     zsets := zsets s; expires := expires s |}.
Definition set_zset (key : string) (z : Redis.zset) (s : Store) : Store :=
  {| hashes := hashes s; lists := lists s;
     zsets := <[key := z]> (zsets s); expires := expires s |}.

Definition exists_key (key : string) (s : Store) : bool :=
  bool_decide (is_Some (hashes s !! key))
  || bool_decide (is_Some (lists s !! key))
  || bool_decide (is_Some (zsets s !! key)).

(** [remove(key)]: DEL key *)
Definition remove (key : string) : Promise Reply :=
  effect (DEL key) >>>
  update_store (λ s, {| hashes := delete key (hashes s);
                        lists := delete key (lists s);
                        zsets := delete key (zsets s);
                        expires := delete key (expires s) |}) >>>
  resolve ROk.

(** [hashSet(key, field, value)]: HSET key field JSON.stringify(value) *)
Definition hashSet (key field : string) (value : FieldValue) : Promise Reply :=
  let value := JSON.stringify value in
  effect (HSET key field value) >>>
  update_store (λ s, set_hash key (<[field := value]> (hash_at key s)) s) >>>
  resolve ROk.

(** [hashMultiSet(key, obj)]: HMSET key field value ... *)
Definition hashMultiSet (key : string) (obj : list (string * FieldValue))
    : Promise Reply :=
  effect (HMSET key obj) >>>
  update_store (λ s,
    set_hash key (foldl (λ h fv, <[fv.1 := fv.2]> h) (hash_at key s) obj) s) >>>
  resolve ROk.

(** [hashUnset(key, fields)]: HDEL key field ... *)
Definition hashUnset (key : string) (fields : list string) : Promise Reply :=
  effect (HDEL key fields) >>>
  update_store (λ s,
    set_hash key (foldl (λ h f, delete f h) (hash_at key s) fields) s) >>>
  resolve ROk.

(** [push(key, values)]: RPUSH key value ... *)
Definition push (key : string) (values : list string) : Promise Reply :=
  effect (RPUSH key values) >>>
  update_store (λ s, set_list key (list_at key s ++ values) s) >>>
  resolve ROk.

(** [sortedAdd(key, members)], [members] being the array
    [score1, member1, score2, member2, ...]: the loop over the even
    indices multiplies every score by -1, then ZADD key score member ... *)
Definition negate_scores (members : list (Z * string)) : list (Z * string) :=
  map (λ e, (-1 * e.1, e.2)) members.

Definition sortedAdd (key : string) (members : list (Z * string)) : Promise Reply :=
  let members := negate_scores members in
  effect (ZADD key members) >>>
  update_store (λ s,
    set_zset key (foldl (λ z e, Redis.zadd e.1 e.2 z) (zset_at key s) members) s) >>>
  resolve ROk.

(** [expire(key, seconds)]: EXPIRE key seconds *)
Definition expire (key : string) (seconds : Z) : Promise Reply :=
  effect (EXPIRE key seconds) >>>
  update_store (λ s,
    if exists_key key s
    then {| hashes := hashes s; lists := lists s; zsets := zsets s;
            expires := <[key := seconds]> (expires s) |}
    else s) >>>
  resolve ROk.

(** [blockPop(key, timeout)]: BLPOP key timeout.  With timeout 0 the
    call waits for ever on an empty list. *)
Definition blockPop (key : string) (timeout : Z) : Promise Reply :=
  effect (BLPOP key) >>>
  let! l := read (λ w, list_at key (store w)) in
  match l with
  | [] => if timeout =? 0 then (λ w, (Pending, w)) else resolve RNil
  | v :: l' =>
      update_store (set_list key l') >>>
      resolve (RList [key; v])
  end.

(** [sortedPop(key)]: MULTI; ZRANGE key 0 0; ZREMRANGEBYRANK key 0 0;
    EXEC, resolved to [res[0][0]]. *)
Definition sortedPop (key : string) : Promise Reply :=
  effect (ZPOP key) >>>
  let! z := read (λ w, zset_at key (store w)) in
  update_store (set_zset key (Redis.zremrangebyrank_0_0 z)) >>>
  resolve (match Redis.zrange_0_0 z with
           | [] => RNil
           | id :: _ => RStr id
           end).

(** [publish(channel, message)]: PUBLISH channel message *)
Definition publish (channel : string) (message : Envelope) : Promise Reply :=
  effect (PUBLISH channel message) >>>
  resolve ROk.

End TransportRedis.

(** ** The layout of the keys *)

Module Keys.

(** [prefix + 'tasks:' + id], the hash of a task *)
Definition taskKey (factory : Factory) (id : string) : string :=
  (prefix factory +:+ "tasks:") +:+ id.

(** [prefix + 'tasks:' + type], the notify list of a type *)
Definition typeKey (factory : Factory) (type : string) : string :=
  (prefix factory +:+ "tasks:") +:+ type.

(** [prefix + 'tasks:' + type + ':waiting'], the sorted set of a type *)
Definition waitKey (factory : Factory) (type : string) : string :=
  typeKey factory type +:+ ":waiting".

(** [prefix + type + ':uids'], the uid reservations of a type *)
Definition uidKey (factory : Factory) (type : string) : string :=
  (prefix factory +:+ type) +:+ ":uids".

End Keys.

(** ** The dispatcher *)

(** What [JSON.parse] makes of a message, as far as [routeMessage]
    reads it: [null], or a value with its [id], [event] and [args]
    properties (all undefined for a number, a string or a boolean). *)
Inductive Json : Type :=
| JNull
| JObject (id event : option string) (args : list Arg).

Module Dispatcher.

Section WithFactory.

Variable factory : Factory.

Definition eventsKey : string := prefix factory +:+ "events".

(** [delegate(team)] *)
Definition delegate (team : Team) : Promise unit :=
  let type := team_name team in
  let! queue := read (λ w, default [] (waitlist w !! type)) in
  update (with_waitlist (<[type := queue ++ [team]]>)) tt >>>
  match queue with
  | _ :: _ => resolve tt
  | [] =>
      (* getNextJob(type): the call is started, its promise dropped *)
      update (with_ticks (λ q, q ++ [type])) tt
  end.

(** [runTask(res)] inside [getNextJob] *)
Definition runTask (type : string) (res : list Reply) : Promise unit :=
  let id := match res !! 1%nat with
            | Some (RStr id) => Some id
            | _ => None
            end in
  let! queue := read (λ w, waitlist w !! type) in
  match queue with
  | None => reject (TypeError "Cannot read property 'length' of undefined")
  | Some [] => resolve tt
  | Some (team :: rest) =>
      update (with_waitlist (<[type := rest]>)) tt >>>
      effect (Delegate team id) >>>
      match rest with
      | [] => resolve tt
      | _ :: _ =>
          effect (NextTick (GetNextJob type)) >>>
          update (with_ticks (λ q, q ++ [type])) tt
      end
  end.

(** [getNextJob(type)]: one pass of the matching loop. *)
Definition getNextJob (type : string) : Promise unit :=
  let masterKey := Keys.typeKey factory type in
  let waitKey := Keys.waitKey factory type in
  let blockPop := λ _ : unit, TransportRedis.blockPop masterKey 0 in
  let sortedPop := λ _ : unit, TransportRedis.sortedPop waitKey in
  let getTask := sequence [blockPop; sortedPop] in
  let! res := getTask tt in
  runTask type res.

(** The event loop over the started calls of [getNextJob]: each call
    is run in turn; one that blocks on its empty list stays where it is,
    with nothing changed, until [run] is entered again. *)
Fixpoint run (fuel : nat) (w : World) : World :=
  match fuel with
  | O => w
  | S fuel' =>
      match ticks w with
      | [] => w
      | type :: rest =>
          match getNextJob type (with_ticks (λ _, rest) w) with
          | (Pending, _) =>
              with_ticks (λ q, type :: q) (run fuel' (with_ticks (λ _, rest) w))
          | (_, w') => run fuel' w'
          end
      end
  end.

(** [subscribe()] *)
Definition subscribe : Promise unit :=
  let! done := read subscribed in
  if done : bool then resolve tt
  else effect (SUBSCRIBE eventsKey) >>> update (with_subscribed true) tt.

(** [watchTask(task)] *)
Definition watchTask (task : Task) : Promise unit :=
  (if bool_decide (t_id task = "") then resolve tt
   else update (with_tasks (<[t_id task := task]>)) tt) >>>
  let! done := read subscribed in
  if done : bool then resolve tt else subscribe.

(** [ignoreTask(id)] *)
Definition ignoreTask (id : string) : Promise unit :=
  update (with_tasks (delete id)) tt.

(** [broadcast(event, id, args)]; the message is
    [JSON.stringify({ id, event, args })]. *)
Definition broadcast (event id : string) (args : list Arg) : Promise unit :=
  if bool_decide (event = "") then resolve tt
  else
    let message := {| e_id := id; e_event := event; e_args := JSON.args args |} in
    TransportRedis.publish eventsKey message >>> resolve tt.

(** [this.tasks[id]]: the task watched under the id; for an id that is
    not watched, what the watch list inherits under that name, which is
    defined and is not a task; or undefined. *)
Inductive Found : Type :=
| Watched (task : Task)
| Inherited
| Missing.

Definition lookup (id : string) (w : World) : Found :=
  match tasks w !! id with
  | Some task => Watched task
  | None => if bool_decide (id ∈ JS.Object_prototype) then Inherited else Missing
  end.

Section Routing.

(** [JSON.parse], which may throw, and [task.emit(...)], which runs the
    listeners registered on the task and throws when one of them does. *)
Variable JSON_parse : string → Error + Json.
Variable emit : Task → list Arg → option Error.

Definition property_key (id : option string) : string := default "undefined" id.

(** The body of the [try] block of [routeMessage]. *)
Definition routeMessage_try (channel message : string) : Promise unit :=
  match JSON_parse message with
  | inl err => reject err
  | inr JNull => reject (TypeError "Cannot read property 'id' of null")
  | inr (JObject id event args) =>
      let! task := read (lookup (property_key id)) in
      match task with
      | Missing => resolve tt
      | Inherited =>
          (* [task.emit] is undefined *)
          reject (TypeError "Cannot read property 'apply' of undefined")
      | Watched task =>
          match emit task args with
          | Some err => reject err
          | None =>
              if bool_decide (event = Some "remove")
              then ignoreTask (property_key id)
              else
                match m_removeAfter (t_metadata task) with
                | Some removeAfter =>
                    if bool_decide (event = Some "success")
                       || bool_decide (event = Some "failure")
                    then effect (SetTimeout (removeAfter * 1000)
                                   (IgnoreTask (property_key id)))
                    else resolve tt
                | None => resolve tt
                end
          end
      end
  end.

(** [routeMessage(channel, message)]: [try { ... } catch (err)
    { console.log("Error", err) }] *)
Definition routeMessage (channel message : string) : Promise unit :=
  λ w, match routeMessage_try channel message w with
       | (Rejected err, w') => (Resolved tt, log (ConsoleLog "Error" err) w')
       | settled => settled
       end.

End Routing.

End WithFactory.

End Dispatcher.

(** ** [parseFloat] *)

(** JavaScript values as far as the progress getter meets them. *)
Inductive Value : Type :=
| VUndefined
| VNumber (n : jsnum)
| VString (s : string)
| VFunction (text : string).

Module ParseFloat.

Definition is_space (c : ascii) : bool :=
  bool_decide (c = " "%char) || bool_decide (c = "009"%char)
  || bool_decide (c = "010"%char) || bool_decide (c = "011"%char)
  || bool_decide (c = "012"%char) || bool_decide (c = "013"%char).

Definition digit (c : ascii) : option Z :=
  let n := Z.of_N (N_of_ascii c) in
  if (48 <=? n) && (n <=? 57) then Some (n - 48) else None.

Fixpoint trim (s : string) : string :=
  match s with
  | String c s' => if is_space c then trim s' else s
  | EmptyString => s
  end.

(** The digits at the head of [s]: their value after [acc], how many
    they are, and the rest. *)
Fixpoint digits (s : string) (acc : Z) (count : nat) : Z * nat * string :=
  match s with
  | String c s' =>
      match digit c with
      | Some d => digits s' (10 * acc + d) (S count)
      | None => (acc, count, s)
      end
  | EmptyString => (acc, count, s)
  end.

Definition exponent (s : string) : Z :=
  match s with
  | String c s' =>
      if bool_decide (c = "e"%char) || bool_decide (c = "E"%char) then
        let '(negative, s'') :=
          match s' with
          | String "-"%char r => (true, r)
          | String "+"%char r => (false, r)
          | _ => (false, s')
          end in
        let '(e, n, _) := digits s'' 0 0%nat in
        match n with
        | O => 0
        | S _ => if negative : bool then - e else e
        end
      else 0
  | EmptyString => 0
  end.

(** [StrUnsignedDecimalLiteral] at the head of [s], if any. *)
Definition unsigned (s : string) : option jsnum :=
  if String.prefix "Infinity" s then Some PosInf
  else
    let '(int, n1, s1) := digits s 0 0%nat in
    let '(frac, n2, s2) :=
      match s1 with
      | String "."%char r => digits r 0 0%nat
      | _ => (0, 0%nat, s1)
      end in
    match (n1 + n2)%nat with
    | O => None
    | S _ =>
        let mantissa := (inject_Z (int * 10 ^ Z.of_nat n2 + frac)
                         / inject_Z (10 ^ Z.of_nat n2))%Q in
        Some (Fin (mantissa * Qpower 10 (exponent s2))%Q)
    end.

Definition negate (n : jsnum) : jsnum :=
  match n with
  | Fin q => Fin (- q)%Q
  | PosInf => NegInf
  | NegInf => PosInf
  | NaN => NaN
  end.

(** [parseFloat(string)]: the longest prefix of the trimmed string that
    is a decimal literal, NaN when there is none. *)
Definition of_string (s : string) : jsnum :=
  match trim s with
  | String "-"%char r => default NaN (negate <$> unsigned r)
  | String "+"%char r => default NaN (unsigned r)
  | r => default NaN (unsigned r)
  end.

(** [Function.prototype.toString]: the text of a function starts with
    the keyword. *)
Definition function_text (text : string) : string := "function" +:+ text.

(** [parseFloat(value)] is [parseFloat(ToString(value))]; a number of
    the model reads back as itself. *)
Definition parseFloat (v : Value) : jsnum :=
  match v with
  | VUndefined => of_string "undefined"
  | VNumber n => n
  | VString s => of_string s
  | VFunction text => of_string (function_text text)
  end.

End ParseFloat.

(** ** The factory's uid check *)

(** Modelled from the spec: [factory.lacksTask(type, uid, client)] is
    not part of the sources at hand.  The spec has [save()] validate
    that the uid is not taken for the type and reject with a
    duplicate-key error if it is, the reservations being the hash
    [<prefix><type>:uids], which maps a uid to the id of its task. *)
Definition lacksTask (factory : Factory) (type uid : string) : Promise Reply :=
  let uidKey := Keys.uidKey factory type in
  let! reserved := read (λ w, TransportRedis.hash_at uidKey (store w) !! uid) in
  match reserved with
  | Some _ => reject (DuplicateKey type uid)
  | None => resolve ROk
  end.

(** ** Tasks *)

(** The second argument of the constructor: an id, or a stored record
    (with its [metadata] and [data] already parsed). *)
Inductive IdArg : Type :=
| FreshId (id : string)
| Stored (record : Task).

(** The [changes] argument of [info]. *)
Record Changes : Type := {
  c_state : option State;
  c_progress : option (option float);
  c_attempts : option Z;
  c_priority : option Priority
}.

Definition no_changes : Changes :=
  {| c_state := None; c_progress := None; c_attempts := None;
     c_priority := None |}.

Module Task.

Section WithFactory.

Variable factory : Factory.

Definition with_metadata (m : Metadata) (t : Task) : Task :=
  {| t_id := t_id t; t_key := t_key t; t_type := t_type t;
     t_data := t_data t; t_metadata := m; t_uid := t_uid t |}.

(** [privates.priorities] *)
Definition priorities : gmap string Z :=
  list_to_map [("low", -10); ("medium", 0); ("high", 10); ("critical", 20)].

(** [(factory.procedures[type] || { defaults : {} }).defaults] *)
Definition defaults (type : string) : Defaults :=
  default no_defaults (procedures factory !! type).

Definition set_priority (p : Priority) (m : Metadata) : Metadata :=
  {| m_created := m_created m; m_state := m_state m;
     m_progress := m_progress m; m_broadcasts := m_broadcasts m;
     m_attempts := m_attempts m; m_priority := Some p;
     m_maxAttempts := m_maxAttempts m; m_removeAfter := m_removeAfter m;
     m_broadcastAll := m_broadcastAll m; m_error := m_error m |}.

(** [priority(priority, update)]: what it returns ([None] for
    undefined) and the task afterwards.  [true == "update"] is false,
    so the setter never goes through [info].  A name is looked up in
    [privates.priorities], a plain object: a name that every object
    inherits finds a function there, and [Number] of it is NaN. *)
Definition priority (arg : option PriorityArg) (t : Task)
    : option Priority * Task :=
  match arg, m_priority (t_metadata t) with
  | None, Some p => (Some (Number_of p), t)
  | _, _ =>
      let medium := default 0 (priorities !! "medium") in
      let normal :=
        match d_priority (defaults (t_type t)) with
        | Some p => if p =? 0 then medium else p
        | None => medium
        end in
      let p :=
        match arg with
        | None => PriorityOf normal
        | Some (PName name) =>
            match priorities !! name with
            | Some level => PriorityOf level
            | None =>
                if bool_decide (name ∈ JS.Object_prototype) then PriorityNaN
                else PriorityOf normal
            end
        | Some (PNum n) => PriorityOf n
        end in
      (None, with_metadata (set_priority p (t_metadata t)) t)
  end.

(** [for (var key in options) this.metadata[key] = options[key]].  The
    [priority] key is left to the call [this.priority(options.priority)]
    that follows in the constructor and replaces whatever was copied. *)
Definition copy_options (o : Options) (m : Metadata) : Metadata :=
  {| m_created := default (m_created m) (o_created o);
     m_state := default (m_state m) (o_state o);
     m_progress := default (m_progress m) (o_progress o);
     m_broadcasts := default (m_broadcasts m) (o_broadcasts o);
     m_attempts := default (m_attempts m) (o_attempts o);
     m_priority := m_priority m;
     m_maxAttempts := from_option Some (m_maxAttempts m) (o_maxAttempts o);
     m_removeAfter := from_option Some (m_removeAfter m) (o_removeAfter o);
     m_broadcastAll := from_option Some (m_broadcastAll m) (o_broadcastAll o);
     m_error := from_option Some (m_error m) (o_error o) |}.

(** [for (var key in defaults) if ("undefined" == typeof
    this.metadata[key]) this.metadata[key] = defaults[key]] *)
Definition copy_defaults (d : Defaults) (m : Metadata) : Metadata :=
  {| m_created := m_created m; m_state := m_state m;
     m_progress := m_progress m; m_broadcasts := m_broadcasts m;
     m_attempts := m_attempts m;
     m_priority := from_option Some (PriorityOf <$> d_priority d) (m_priority m);
     m_maxAttempts := from_option Some (d_maxAttempts d) (m_maxAttempts m);
     m_removeAfter := from_option Some (d_removeAfter d) (m_removeAfter m);
     m_broadcastAll := from_option Some (d_broadcastAll d) (m_broadcastAll m);
     m_error := m_error m |}.

(** [this.metadata.maxAttempts = this.metadata.maxAttempts || 1] *)
Definition ensure_maxAttempts (m : Metadata) : Metadata :=
  {| m_created := m_created m; m_state := m_state m;
     m_progress := m_progress m; m_broadcasts := m_broadcasts m;
     m_attempts := m_attempts m; m_priority := m_priority m;
     m_maxAttempts :=
       Some (match m_maxAttempts m with
             | Some n => if n =? 0 then 1 else n
             | None => 1
             end);
     m_removeAfter := m_removeAfter m;
     m_broadcastAll := m_broadcastAll m; m_error := m_error m |}.

(** [Task(factory, id, type, data, options)]; [now] is [Date.now()]. *)
Definition new (id : IdArg) (type : string) (data : option Data)
    (options : Options) (now : Z) : Task :=
  let this :=
    match id with
    | Stored record => record
    | FreshId id =>
        let data := default {| data_uid := None; data_payload := "" |} data in
        let metadata :=
          {| m_created := now; m_state := Waiting;
             m_progress := Some 0%float; m_broadcasts := ["remove"];
             m_attempts := 0; m_priority := None; m_maxAttempts := None;
             m_removeAfter := None; m_broadcastAll := None;
             m_error := None |} in
        {| t_id := id; t_key := Keys.taskKey factory id;
           t_type := type; t_data := data;
           t_metadata := copy_options options metadata;
           t_uid := data_uid data |}
    end in
  let this := (priority (o_priority options) this).2 in
  let this :=
    with_metadata (copy_defaults (defaults (t_type this)) (t_metadata this)) this in
  with_metadata (ensure_maxAttempts (t_metadata this)) this.

(** [toObject()] / [serialize()]: the fields of the stored record,
    [data] and [metadata] as [JSON.stringify] writes them. *)
Definition serialize (t : Task) : list (string * FieldValue) :=
  [("id", FString (t_id t)); ("key", FString (t_key t));
   ("type", FString (t_type t)); ("data", JSON.stringify (FData (t_data t)));
   ("metadata", JSON.stringify (FMetadata (t_metadata t)))]
  ++ match t_uid t with
     | Some uid => [("uid", FString uid)]
     | None => []
     end.

(** [broadcasts(event)] *)
Definition broadcasts (event : string) (t : Task) : bool :=
  bool_decide (event ∈ m_broadcasts (t_metadata t)).

(** [broadcast(event, ...)]: the event is part of the arguments. *)
Definition broadcast (event : string) (args : list Arg) (t : Task) : Promise unit :=
  Dispatcher.broadcast factory event (t_id t) (AStr event :: args).

(** [emit(event, ...)] of EventEmitter: the local listeners are called. *)
Definition emit (event : string) (args : list Arg) (t : Task) : Promise unit :=
  effect (Emit (t_id t) event (AStr event :: args)).

(** [announce(event, ...)] *)
Definition announce (event : string) (args : list Arg) (t : Task) : Promise unit :=
  if bool_decide (m_broadcastAll (t_metadata t) = Some true) || broadcasts event t
  then broadcast event args t
  else emit event args t.

(** [on(event, listener)]: the task afterwards. *)
Definition on (event : string) (t : Task) : Promise Task :=
  let m := t_metadata t in
  let t' :=
    if broadcasts event t then t
    else with_metadata
           {| m_created := m_created m; m_state := m_state m;
              m_progress := m_progress m;
              m_broadcasts := m_broadcasts m ++ [event];
              m_attempts := m_attempts m; m_priority := m_priority m;
              m_maxAttempts := m_maxAttempts m;
              m_removeAfter := m_removeAfter m;
              m_broadcastAll := m_broadcastAll m; m_error := m_error m |} t in
  Dispatcher.watchTask factory t' >>> resolve t'.

(** [info(changes)], the setter: the changes are merged into the
    metadata, which is written to the [metadata] field of the record. *)
Definition merge (changes : Changes) (m : Metadata) : Metadata :=
  {| m_created := m_created m;
     m_state := default (m_state m) (c_state changes);
     m_progress := default (m_progress m) (c_progress changes);
     m_broadcasts := m_broadcasts m;
     m_attempts := default (m_attempts m) (c_attempts changes);
     m_priority := from_option Some (m_priority m) (c_priority changes);
     m_maxAttempts := m_maxAttempts m; m_removeAfter := m_removeAfter m;
     m_broadcastAll := m_broadcastAll m; m_error := m_error m |}.

Definition info (changes : Changes) (t : Task) : Promise Task :=
  let t' := with_metadata (merge changes (t_metadata t)) t in
  TransportRedis.hashSet (t_key t') "metadata" (FMetadata (t_metadata t')) >>>
  resolve t'.

(** [activate()] *)
Definition activate (t : Task) : Promise Task :=
  let attempts := m_attempts (t_metadata t) + 1 in
  info {| c_state := Some Active; c_progress := None;
          c_attempts := Some attempts; c_priority := None |} t.

(** [deactivate(client)] *)
Definition deactivate (t : Task) : Promise Reply := resolve RNil.

(** [queue(client)] *)
Definition queue (t : Task) : Promise Reply :=
  let priority := (priority None t).1 in
  let typeKey := Keys.typeKey factory (t_type t) in
  let waitKey := Keys.waitKey factory (t_type t) in
  let queueTask := λ _ : unit,
    match priority with
    | Some (PriorityOf priority) =>
        TransportRedis.sortedAdd waitKey [(priority, t_id t)]
    | _ =>
        (* the score is NaN *)
        reject (TypeError "ERR value is not a valid float")
    end in
  let pushTask := λ _ : unit, TransportRedis.push typeKey [t_id t] in
  let! results := sequence [λ _, deactivate t; queueTask; pushTask] tt in
  resolve (RSeq results).

(** [privates.uidFunctions(task)]: the check and the update. *)
Definition uidFunctions (task : Task) : (unit → Promise Reply) * (unit → Promise Reply) :=
  let uidKey := Keys.uidKey factory (t_type task) in
  match t_uid task with
  | Some uid =>
      (λ _, lacksTask factory (t_type task) uid,
       λ _, TransportRedis.hashSet uidKey uid (FString (t_id task)))
  | None => (λ _, resolve RNil, λ _, resolve RNil)
  end.

(** [save()]: the tasks it hands to [sequence] (its [seq]), and the
    call. *)
Definition seq (t : Task) : list (unit → Promise Reply) :=
  let uidFxns := uidFunctions t in
  let storeTask := λ _ : unit, TransportRedis.hashMultiSet (t_key t) (serialize t) in
  [uidFxns.1; storeTask; (λ _, queue t); uidFxns.2].

Definition save (t : Task) : Promise (list Reply) :=
  sequence (seq t) tt.

(** [remove()] *)
Definition remove (t : Task) : Promise Reply :=
  let key := t_key t in
  announce "remove" [] t >>>
  TransportRedis.remove key.

(** [privates.expireFunction(task)]: the timer is set when the function
    is made, the expiry when it is called. *)
Definition expireFunction (task : Task) : Promise (unit → Promise Reply) :=
  let key := t_key task in
  match m_removeAfter (t_metadata task) with
  | None => resolve (λ _, resolve RNil)
  | Some expires =>
      effect (SetTimeout (1000 * expires) (AnnounceRemove (t_id task))) >>>
      resolve (λ _, TransportRedis.expire key expires)
  end.

(** [finalize(state, progress, err, client)]; [progress] is [None] for
    [null], [err] is [None] when it is falsy.  A task without uid sends
    its undefined uid to HDEL, which makes it the field [undefined]. *)
Definition finalize (state : State) (progress : option float)
    (err : option string) (t : Task) : Promise Task :=
  let m := t_metadata t in
  let metadata :=
    {| m_created := m_created m; m_state := state; m_progress := progress;
       m_broadcasts := m_broadcasts m; m_attempts := m_attempts m;
       m_priority := m_priority m; m_maxAttempts := m_maxAttempts m;
       m_removeAfter := m_removeAfter m; m_broadcastAll := m_broadcastAll m;
       m_error := match err with
                  | Some e => if bool_decide (e = "") then m_error m else Some e
                  | None => m_error m
                  end |} in
  let t' := with_metadata metadata t in
  let uid := default "undefined" (t_uid t) in
  let uidKey := Keys.uidKey factory (t_type t) in
  let! expireFxn := expireFunction t' in
  let hashSet := λ _ : unit,
    TransportRedis.hashSet (t_key t) "metadata" (FMetadata metadata) in
  let hashUnset := λ _ : unit, TransportRedis.hashUnset uidKey [uid] in
  sequence [hashSet; hashUnset; expireFxn] tt >>>
  resolve t'.

(** [progress(num, den)]: the getter when [num] is undefined, else the
    setter. *)
Definition progress (text : string) (num den : option float) (t : Task)
    : jsnum + Promise Task :=
  match num with
  | None =>
      (* [this.progress] is the method itself *)
      inl (ParseFloat.parseFloat (VFunction text))
  | Some num =>
      let progress :=
        match den with
        | None => JS.Math_min num JS.hundred
        | Some den => JS.Math_min (100 * num / den)%float JS.hundred
        end in
      inr (announce "progress" [ANum progress] t >>>
           if (100 =? progress)%float
           then finalize Success (Some JS.hundred) None t
           else info {| c_state := None; c_progress := Some (Some progress);
                        c_attempts := None; c_priority := None |} t)
  end.

(** [success()] *)
Definition success (t : Task) : Promise Task :=
  announce "success" [] t >>>
  deactivate t >>>
  finalize Success (Some JS.hundred) None t.

(** [failure(err)]; [err] is [err.toString()] when [err] is defined. *)
Definition failure (err : option string) (t : Task) : Promise Task :=
  let m := t_metadata t in
  if match m_maxAttempts m with
     | Some maxAttempts => m_attempts m <? maxAttempts
     | None => false
     end
  then
    announce "retry" [] t >>>
    queue t >>>
    resolve t
  else
    let errMsg := default "Unknown error" err in
    announce "failure" [] t >>>
    deactivate t >>>
    finalize Failure None (Some errMsg) t.

End WithFactory.

End Task.

(** ** Observations used by the statements *)

(** The [message] events of the subscriber, one call of [routeMessage]
    each, in the order they arrive. *)
Fixpoint routeMessages (JSON_parse : string → Error + Json)
    (emit : Task → list Arg → option Error) (messages : list (string * string))
    : Promise unit :=
  match messages with
  | [] => resolve tt
  | (channel, message) :: rest =>
      Dispatcher.routeMessage JSON_parse emit channel message >>>
      routeMessages JSON_parse emit rest
  end.

(** The jobs handed to teams, in order. *)
Definition delegated (tr : list Effect) : list (Team * option string) :=
  omap (λ e, match e with Delegate team job => Some (team, job) | _ => None end) tr.

(** The [metadata] field of the record stored under [key]. *)
Definition persisted (key : string) (w : World) : option Metadata :=
  match TransportRedis.hash_at key (store w) !! "metadata" with
  | Some (FMetadata m) => Some m
  | _ => None
  end.

Definition is_resolved {A} (o : Outcome A) : bool :=
  match o with Resolved _ => true | _ => false end.

(** What [announce] adds to the trace. *)
Definition announcement (factory : Factory) (event : string) (args : list Arg) (t : Task) : Effect :=
  if bool_decide (m_broadcastAll (t_metadata t) = Some true)
     || Task.broadcasts event t
  then PUBLISH (Dispatcher.eventsKey factory)
         {| e_id := t_id t; e_event := event;
            e_args := JSON.args (AStr event :: args) |}
  else Emit (t_id t) event (AStr event :: args).


(** The events announced, by name, in order. *)
Definition events_announced (tr : list Effect) : list string :=
  omap (λ e, match e with
             | PUBLISH _ message => Some (e_event message)
             | Emit _ event _ => Some event
             | _ => None
             end) tr.

(** The promise of the progress setter. *)
Definition progress_set (factory : Factory) (num : float) (den : option float)
    (t : Task) : Promise Task :=
  match Task.progress factory "" (Some num) den t with
  | inr promise => promise
  | inl _ => resolve t
  end.

(** The metadata [finalize] writes. *)
Definition finalized (state : State) (progress : option float)
    (err : option string) (m : Metadata) : Metadata :=
  {| m_created := m_created m; m_state := state; m_progress := progress;
     m_broadcasts := m_broadcasts m; m_attempts := m_attempts m;
     m_priority := m_priority m; m_maxAttempts := m_maxAttempts m;
     m_removeAfter := m_removeAfter m; m_broadcastAll := m_broadcastAll m;
     m_error := match err with
                | Some e => if bool_decide (e = "") then m_error m else Some e
                | None => m_error m
                end |}.

(** The metadata written to the store by [hashSet], with the key of
    the record. *)
Definition metadata_written (tr : list Effect) : list (string * Metadata) :=
  omap (λ e, match e with
             | HSET key _ (FMetadata m) => Some (key, m)
             | _ => None
             end) tr.

(** What [finalize] adds to the trace. *)
Definition finalize_effects (factory : Factory) (state : State)
    (progress : option float) (err : option string) (t : Task) : list Effect :=
  let timer :=
    match m_removeAfter (t_metadata t) with
    | Some expires => [SetTimeout (1000 * expires) (AnnounceRemove (t_id t))]
    | None => []
    end in
  let expiry :=
    match m_removeAfter (t_metadata t) with
    | Some expires => [EXPIRE (t_key t) expires]
    | None => []
    end in
  timer
  ++ [HSET (t_key t) "metadata"
        (FMetadata (JSON.metadata (finalized state progress err (t_metadata t))));
      HDEL (Keys.uidKey factory (t_type t)) [default "undefined" (t_uid t)]]
  ++ expiry.

(** The value the progress setter computes from its arguments. *)
Definition normalized (num : float) (den : option float) : float :=
  match den with
  | None => JS.Math_min num JS.hundred
  | Some den => JS.Math_min (100 * num / den)%float JS.hundred
  end.

(** [0 <= v <= 100] *)
Definition within_0_100 (v : float) : bool :=
  (0 <=? v)%float && (v <=? 100)%float.

(** The constructor's arguments leave [remove] among the broadcasts:
    the options give no [broadcasts], or one with [remove] in it; a
    stored record has it. *)
Definition keeps_remove (id : IdArg) (options : Options) : bool :=
  match id with
  | FreshId _ =>
      match o_broadcasts options with
      | None => true
      | Some l => bool_decide ("remove" ∈ l)
      end
  | Stored record => bool_decide ("remove" ∈ m_broadcasts (t_metadata record))
  end.

(** The world after [sortedAdd] of the task, and after the [push] that
    follows it in [queue]. *)
Definition ranked (factory : Factory) (t : Task) (p : Z) (w : World) : World :=
  (TransportRedis.sortedAdd (Keys.waitKey factory (t_type t)) [(p, t_id t)] w).2.

Definition queued (factory : Factory) (t : Task) (p : Z) (w : World) : World :=
  (TransportRedis.push (Keys.typeKey factory (t_type t)) [t_id t]
     (ranked factory t p w)).2.

(** The world after the record of the task is written. *)
Definition stored (t : Task) (w : World) : World :=
  (TransportRedis.hashMultiSet (t_key t) (Task.serialize t) w).2.

(** The world after the uid of the task, if it has one, is reserved. *)
Definition reserved (factory : Factory) (t : Task) (w : World) : World :=
  ((Task.uidFunctions factory t).2 tt w).2.

(** Teams registering as idle, one after the other. *)
Fixpoint delegate_all (teams : list Team) : Promise unit :=
  match teams with
  | [] => resolve tt
  | team :: rest => Dispatcher.delegate team >>> delegate_all rest
  end.

(** What a run of the matching loop hands out: a job for each idle
    team, in the order of the waitlist, for as long as the notify list
    has an entry to pop; the job is the member then first in the sorted
    set, or undefined when the set is empty. *)
Fixpoint hand_out (teams : list Team) (notify : list string) (z : Redis.zset)
    : list (Team * option string) :=
  match teams, notify with
  | team :: teams', _ :: notify' =>
      (team, head (Redis.members z)) :: hand_out teams' notify' (tail z)
  | _, _ => []
  end.

(** [a] is handed out, and before [b] is. *)
Definition handed_out_before (a b : string) (jobs : list (Team * option string))
    : Prop :=
  ∃ i j team_a team_b,
    (i < j)%nat
    ∧ jobs !! i = Some (team_a, Some a)
    ∧ jobs !! j = Some (team_b, Some b).

(** [b] is not handed out unless [a] was, earlier. *)
Definition never_handed_out_first (a b : string) (jobs : list (Team * option string))
    : Prop :=
  ∀ j team_b, jobs !! j = Some (team_b, Some b) →
    ∃ i team_a, (i < j)%nat ∧ jobs !! i = Some (team_a, Some a).

(** Two saves, one after the other. *)
Definition save_both (factory : Factory) (first second : Task) : Promise unit :=
  Task.save factory first >>> Task.save factory second >>> resolve tt.

(** ** Sample data *)

Module Sample.

Definition factory : Factory := {| prefix := "q:"; procedures := ∅ |}.

(** A fresh [email] task. *)
Definition email (id : string) (uid : option string) (options : Options) : Task :=
  Task.new factory (FreshId id) "email"
    (Some {| data_uid := uid; data_payload := "{}" |}) options 0.

Definition with_priority (p : PriorityArg) : Options :=
  {| o_created := None; o_state := None; o_progress := None;
     o_broadcasts := None; o_attempts := None; o_priority := Some p;
     o_maxAttempts := None; o_removeAfter := None; o_broadcastAll := None;
     o_error := None |}.

Definition with_maxAttempts (n : Z) : Options :=
  {| o_created := None; o_state := None; o_progress := None;
     o_broadcasts := None; o_attempts := None; o_priority := None;
     o_maxAttempts := Some n; o_removeAfter := None; o_broadcastAll := None;
     o_error := None |}.

Definition with_broadcasts (l : list string) : Options :=
  {| o_created := None; o_state := None; o_progress := None;
     o_broadcasts := Some l; o_attempts := None; o_priority := None;
     o_maxAttempts := None; o_removeAfter := None; o_broadcastAll := None;
     o_error := None |}.

Definition team (n : nat) : Team := {| team_name := "email"; team_tag := n |}.

End Sample.

(** ** Runs of several calls *)

(** [n] calls of [activate()], one after the other. *)
Fixpoint activations (n : nat) (t : Task) : Promise Task :=
  match n with
  | O => resolve t
  | S n' => let! t' := Task.activate t in activations n' t'
  end.

(** A worker's turn that does not succeed: the task is activated, then
    [failure(err)] is called on it. *)
Definition failed_attempt (factory : Factory) (err : option string) (t : Task)
    : Promise Task :=
  let! t' := Task.activate t in Task.failure factory err t'.

Fixpoint failed_attempts (factory : Factory) (err : option string) (n : nat)
    (t : Task) : Promise Task :=
  match n with
  | O => resolve t
  | S n' =>
      let! t' := failed_attempt factory err t in
      failed_attempts factory err n' t'
  end.

(** [n] calls of [blockPop(key, 0)], with their replies. *)
Fixpoint blockPops (key : string) (n : nat) : Promise (list Reply) :=
  match n with
  | O => resolve []
  | S n' =>
      let! r := TransportRedis.blockPop key 0 in
      let! rs := blockPops key n' in
      resolve (r :: rs)
  end.

(** Tasks put on the watch list, one after the other. *)
Fixpoint watch_all (factory : Factory) (tasks : list Task) : Promise unit :=
  match tasks with
  | [] => resolve tt
  | task :: rest => Dispatcher.watchTask factory task >>> watch_all factory rest
  end.

(** How many times the events channel was subscribed to. *)
Definition subscriptions (tr : list Effect) : nat :=
  length (omap (λ e, match e with SUBSCRIBE channel => Some channel | _ => None end) tr).

(** The timers set, with their delays. *)
Definition timers (tr : list Effect) : list (Z * Deferred) :=
  omap (λ e, match e with SetTimeout ms call => Some (ms, call) | _ => None end) tr.

(** The messages published. *)
Definition published (tr : list Effect) : list (string * Envelope) :=
  omap (λ e, match e with
             | PUBLISH channel message => Some (channel, message)
             | _ => None
             end) tr.

(** ** Connections *)

Module Transport.

(** What [url.parse] makes of a uri: its port, hostname and auth
    parts, each null when the uri has none. *)
Record Url : Type := {
  url_port : option string;
  url_hostname : option string;
  url_auth : option string
}.

(** The [uri] setting: a string (given with its parts) or another value. *)
Inductive UriSetting : Type :=
| UriString (parts : Url)
| UriOther.

(** The settings the transport is made with. *)
Record Settings : Type := {
  s_uri : option UriSetting;
  s_port : option string;
  s_hostname : option string;
  s_options : option string;
  s_password : option string
}.

(** The options handed to [redis.createClient]. *)
Inductive ClientOptions : Type :=
| Given (options : option string)
| NoReadyCheck.

(** A [TransportRedis]: the arguments of its client, and its password
    when it has one. *)
Record Connection : Type := {
  c_port : option string;
  c_hostname : option string;
  c_options : ClientOptions;
  c_password : option string
}.

(** [value || fallback] for a string that may be undefined. *)
Definition or_else (value : option string) (fallback : string) : string :=
  match value with
  | Some s => if bool_decide (s = "") then fallback else s
  | None => fallback
  end.

(** [s.split(":")] *)
Fixpoint split_colon (s : string) : list string :=
  match s with
  | EmptyString => [""]
  | String c s' =>
      if bool_decide (c = ":"%char) then "" :: split_colon s'
      else match split_colon s' with
           | head :: rest => String c head :: rest
           | [] => [String c ""]
           end
  end.

(** [new TransportRedis(args)], which may throw. *)
Definition TransportRedis_new (args : Settings) : Error + Connection :=
  match s_uri args with
  | None =>
      inr {| c_port := Some (or_else (s_port args) "6379");
             c_hostname := Some (or_else (s_hostname args) "127.0.0.1");
             c_options := Given (s_options args);
             c_password :=
               match s_password args with
               | Some p => if bool_decide (p = "") then None else Some p
               | None => None
               end |}
  | Some (UriString redisUrl) =>
      match url_auth redisUrl with
      | None => inl (TypeError "Cannot read property 'split' of null")
      | Some auth =>
          inr {| c_port := url_port redisUrl;
                 c_hostname := url_hostname redisUrl;
                 c_options := NoReadyCheck;
                 c_password := split_colon auth !! 1%nat |}
      end
  | Some UriOther =>
      inl (Thrown "Invalid connection settings. Cannot connect to Redis")
  end.

(** What [createConnection] calls: [client.auth] and [done]. *)
Inductive Call : Type :=
| Auth (password : string)
| Done (err : option Error) (connection : option Connection).

(** [createConnection(done)]: the calls it makes, in order. *)
Definition createConnection (settings : Settings) : list Call :=
  let attempt := TransportRedis_new settings in
  let tried :=
    match attempt with
    | inr connection =>
        match c_password connection with
        | Some password => [Auth password]
        | None => []
        end
    | inl err => [Done (Some err) None]
    end in
  let connection :=
    match attempt with
    | inr connection => Some connection
    | inl _ => None
    end in
  tried ++ [Done None connection].

(** The calls of [done] among the calls. *)
Definition done_calls (calls : list Call) : list (option Error * option Connection) :=
  omap (λ c, match c with
             | Done err connection => Some (err, connection)
             | Auth _ => None
             end) calls.

End Transport.

(** ** More sample data *)

Module Examples.

Definition with_removeAfter (seconds : Z) : Options :=
  {| o_created := None; o_state := None; o_progress := None;
     o_broadcasts := None; o_attempts := None; o_priority := None;
     o_maxAttempts := None; o_removeAfter := Some seconds;
     o_broadcastAll := None; o_error := None |}.

(** A parser for messages that are the name of their event, all about
    the task of id 1; any other text is not JSON. *)
Definition parse (message : string) : Error + Json :=
  if bool_decide (message ∈ ["remove"; "success"; "progress"])
  then inr (JObject (Some "1") (Some message) [AStr message])
  else inl (SyntaxError "Unexpected token").

(** Listeners that return normally, and listeners that throw. *)
Definition quiet (task : Task) (args : list Arg) : option Error := None.
Definition throwing (task : Task) (args : list Arg) : option Error :=
  Some (Thrown "listener").

(** A world in which the dispatcher watches the task of id 1, which
    is removed 5 seconds after it ends. *)
Definition watched_task : Task := Sample.email "1" None (with_removeAfter 5).
Definition watching : World :=
  (Dispatcher.watchTask Sample.factory watched_task empty_world).2.

End Examples.

(** ** The console *)

(** The errors logged, in order. *)
Definition console (tr : list Effect) : list Error :=
  omap (λ e, match e with ConsoleLog _ err => Some err | _ => None end) tr.

(** ** Calls in flight at the same time *)

(** A call of [sequence] in flight: the tasks it has still to run and
    the results so far; or how it has settled. *)
Inductive InFlight : Type :=
| Running (rest : list (unit → Promise Reply)) (results : list Reply)
| Settled (outcome : Outcome (list Reply)).

Definition settle (call : InFlight) : InFlight :=
  match call with
  | Running [] results => Settled (Resolved results)
  | _ => call
  end.

Definition start (tasks : list (unit → Promise Reply)) : InFlight :=
  settle (Running tasks []).

(** Modelled from the spec: [factory.execute], which hands a client to
    each call, is not part of the sources at hand.  The spec has every
    store operation as a point at which the event loop goes on with
    another call in flight, and the calls of one process as never
    interleaved in between.  A turn of the event loop given to a call:
    its next task is started and its reply taken; the call settles
    when that was its last task, or when the task did not resolve.  (A
    task that is a sequence of its own, like [queue], is run through in
    the one turn.) *)
Definition turn (call : InFlight) (w : World) : InFlight * World :=
  match call with
  | Running (task :: rest) results =>
      match task tt w with
      | (Resolved r, w') => (settle (Running rest (results ++ [r])), w')
      | (Rejected e, w') => (Settled (Rejected e), w')
      | (Pending, w') => (Settled Pending, w')
      end
  | _ => (settle call, w)
  end.

(** [n] turns given to one call. *)
Fixpoint turns (n : nat) (call : InFlight) (w : World) : InFlight * World :=
  match n with
  | O => (call, w)
  | S n' => let '(call', w') := turn call w in turns n' call' w'
  end.

(** Two calls in flight; [order] says whose turn it is, one turn after
    the other ([true]: the first call's). *)
Fixpoint overlap (order : list bool) (a b : InFlight) (w : World)
    : InFlight * InFlight * World :=
  match order with
  | [] => (a, b, w)
  | true :: order' => let '(a', w') := turn a w in overlap order' a' b w'
  | false :: order' => let '(b', w') := turn b w in overlap order' a b' w'
  end.
(** * Properties *)

(** ** Sorted sets *)

Module RedisFacts.
Import Redis.

Lemma member_ltb_lt m1 m2 : member_ltb m1 m2 = true ↔ String_as_OT.lt m1 m2.
Proof.
  unfold member_ltb, String_as_OT.lt.
  destruct (String_as_OT.compare m1 m2); split; congruence.
Qed.

Lemma entry_ltb_lt e1 e2 : entry_ltb e1 e2 = true ↔ entry_lt e1 e2.
Proof.
  unfold entry_ltb, entry_lt.
  rewrite orb_true_iff, andb_true_iff, Z.ltb_lt, Z.eqb_eq, member_ltb_lt.
  done.
Qed.

Lemma member_lt_irrefl m : ¬ String_as_OT.lt m m.
Proof. apply (StrictOrder_Irreflexive (R := String_as_OT.lt)). Qed.

Lemma member_lt_trans m1 m2 m3 :
  String_as_OT.lt m1 m2 → String_as_OT.lt m2 m3 → String_as_OT.lt m1 m3.
Proof. apply (StrictOrder_Transitive (R := String_as_OT.lt)). Qed.

Lemma member_lt_total m1 m2 :
  String_as_OT.lt m1 m2 ∨ m1 = m2 ∨ String_as_OT.lt m2 m1.
Proof.
  destruct (String_as_OT.compare_spec m1 m2) as [Heq|Hlt|Hgt]; auto.
Qed.

Lemma entry_lt_irrefl e : ¬ entry_lt e e.
Proof.
  intros [Hlt|[_ Hlt]]; [lia|]. by apply member_lt_irrefl in Hlt.
Qed.

Lemma entry_lt_trans e1 e2 e3 : entry_lt e1 e2 → entry_lt e2 e3 → entry_lt e1 e3.
Proof.
  unfold entry_lt. intros [H12|[H12 M12]] [H23|[H23 M23]]; [left; lia..|].
  right. split; [lia|]. by eapply member_lt_trans.
Qed.

(** Two entries with different members are ordered one way or the other. *)
Lemma entry_lt_total e1 e2 : e1.2 ≠ e2.2 → entry_lt e1 e2 ∨ entry_lt e2 e1.
Proof.
  intros Hne. unfold entry_lt.
  destruct (Z.lt_total e1.1 e2.1) as [?|[Heq|?]]; [by left; left| |by right; left].
  destruct (member_lt_total e1.2 e2.2) as [?|[?|?]]; [by left; right|done|].
  right; right. by split.
Qed.

Lemma elem_of_zinsert e e' z : e' ∈ zinsert e z ↔ e' = e ∨ e' ∈ z.
Proof.
  induction z as [|e0 z IH]; simpl.
  - rewrite elem_of_cons. tauto.
  - destruct (entry_ltb e e0); [by rewrite elem_of_cons|].
    rewrite !elem_of_cons, IH. tauto.
Qed.

Lemma zinsert_sorted e z :
  e.2 ∉ members z → StronglySorted entry_lt z → StronglySorted entry_lt (zinsert e z).
Proof.
  unfold members. induction z as [|e0 z IH]; simpl; intros Hfresh Hsorted.
  - repeat constructor.
  - apply StronglySorted_inv in Hsorted as [Hsorted Hall].
    rewrite not_elem_of_cons in Hfresh. destruct Hfresh as [Hne Hfresh].
    destruct (entry_ltb e e0) eqn:Hlt.
    + apply entry_ltb_lt in Hlt.
      constructor; [by constructor|].
      constructor; [done|].
      eapply Forall_impl; [exact Hall|]. intros e1 H01. by eapply entry_lt_trans.
    + constructor; [by apply IH|].
      apply Forall_forall. intros e1 Hin.
      apply elem_of_zinsert in Hin as [->|Hin].
      * destruct (entry_lt_total e e0 Hne) as [Hlt'|Hgt]; [|done].
        apply entry_ltb_lt in Hlt'. congruence.
      * rewrite Forall_forall in Hall. by apply Hall.
Qed.

Lemma elem_of_zrem e m z : e ∈ zrem m z ↔ e ∈ z ∧ e.2 ≠ m.
Proof.
  induction z as [|e0 z IH]; simpl.
  - rewrite elem_of_nil. tauto.
  - destruct (String.eqb_spec e0.2 m) as [Heq|Hne].
    + rewrite IH, elem_of_cons. split; [tauto|].
      intros [[->|Hin] Hne]; [done|tauto].
    + rewrite !elem_of_cons, IH. split; [|tauto].
      intros [->|[Hin Hne']]; tauto.
Qed.

Lemma zrem_not_member m z : m ∉ members (zrem m z).
Proof.
  unfold members. rewrite list_elem_of_fmap. intros ([s m'] & -> & Hin).
  apply elem_of_zrem in Hin. by destruct Hin.
Qed.

Lemma zrem_sorted m z : StronglySorted entry_lt z → StronglySorted entry_lt (zrem m z).
Proof.
  induction 1 as [|e z Hsorted IH Hall]; [constructor|].
  simpl. destruct (String.eqb e.2 m); [done|].
  constructor; [done|].
  apply Forall_forall. intros e' Hin.
  apply elem_of_zrem in Hin as [Hin _].
  rewrite Forall_forall in Hall. by apply Hall.
Qed.

Lemma zrem_NoDup m z : NoDup (members z) → NoDup (members (zrem m z)).
Proof.
  unfold members. induction z as [|e z IH]; [done|].
  rewrite fmap_cons, NoDup_cons. intros [Hfresh Hnodup].
  simpl. destruct (String.eqb e.2 m); [by apply IH|].
  rewrite fmap_cons, NoDup_cons. split; [|by apply IH].
  rewrite list_elem_of_fmap. intros (e' & Heq & Hin).
  apply elem_of_zrem in Hin as [Hin _].
  apply Hfresh, list_elem_of_fmap. by exists e'.
Qed.

Lemma zinsert_members e z : members (zinsert e z) ≡ₚ e.2 :: members z.
Proof.
  unfold members. induction z as [|e0 z IH]; simpl; [done|].
  destruct (entry_ltb e e0); [done|].
  simpl. rewrite IH. apply Permutation_swap.
Qed.

Lemma elem_of_zadd e s m z :
  e ∈ zadd s m z ↔ e = (s, m) ∨ (e ∈ z ∧ e.2 ≠ m).
Proof. unfold zadd. by rewrite elem_of_zinsert, elem_of_zrem. Qed.

(** ZADD keeps a sorted set well formed. *)
Lemma zadd_wf s m z : zset_wf z → zset_wf (zadd s m z).
Proof.
  intros [Hsorted Hnodup]. unfold zadd. split.
  - apply zinsert_sorted; [apply zrem_not_member|by apply zrem_sorted].
  - rewrite zinsert_members. apply NoDup_cons. split.
    + apply zrem_not_member.
    + by apply zrem_NoDup.
Qed.

(** Removing the first rank keeps it well formed too, and so does the
    empty set: every sorted set the store holds is well formed. *)
Lemma zremrangebyrank_wf z : zset_wf z → zset_wf (zremrangebyrank_0_0 z).
Proof.
  intros [Hsorted Hnodup]. destruct z as [|e z]; [done|].
  apply StronglySorted_inv in Hsorted as [Hsorted _].
  unfold members in Hnodup. rewrite fmap_cons in Hnodup.
  apply NoDup_cons in Hnodup as [_ Hnodup]. by split.
Qed.

Lemma empty_wf : zset_wf [].
Proof. split; constructor. Qed.

Lemma zadd_member s m z : m ∈ members (zadd s m z).
Proof.
  unfold members. apply list_elem_of_fmap. exists (s, m).
  split; [done|]. apply elem_of_zadd. by left.
Qed.

Lemma zadd_length s m z : (length (zadd s m z) ≤ S (length z))%nat.
Proof.
  unfold zadd.
  assert (Hinsert : ∀ e z', length (zinsert e z') = S (length z')).
  { intros e z'. induction z' as [|e0 z' IH]; simpl; [done|].
    destruct (entry_ltb e e0); simpl; by rewrite ?IH. }
  assert (Hrem : (length (zrem m z) ≤ length z)%nat).
  { induction z as [|e0 z IH]; simpl; [done|].
    destruct (String.eqb e0.2 m); simpl; lia. }
  rewrite Hinsert. lia.
Qed.

(** In a sorted set the smaller entry has the smaller rank. *)
Lemma sorted_rank z i j e1 e2 :
  StronglySorted entry_lt z →
  z !! i = Some e1 → z !! j = Some e2 → entry_lt e1 e2 → (i < j)%nat.
Proof.
  intros Hsorted. revert i j.
  induction Hsorted as [|e z Hsorted IH Hall]; intros i j Hi Hj Hlt; [done|].
  rewrite Forall_forall in Hall.
  destruct i as [|i], j as [|j]; simpl in *.
  - simplify_eq. by apply entry_lt_irrefl in Hlt.
  - lia.
  - simplify_eq. exfalso.
    apply (entry_lt_irrefl e1). eapply entry_lt_trans; [exact Hlt|].
    apply Hall. by eapply list_elem_of_lookup_2.
  - assert (i < j)%nat by (by eapply IH). lia.
Qed.

End RedisFacts.

(** ** The store *)

Lemma zset_at_set_zset key z s :
  TransportRedis.zset_at key (TransportRedis.set_zset key z s) = z.
Proof. unfold TransportRedis.zset_at; simpl. by rewrite lookup_insert_eq. Qed.

Lemma list_at_set_list key l s :
  TransportRedis.list_at key (TransportRedis.set_list key l s) = l.
Proof. unfold TransportRedis.list_at; simpl. by rewrite lookup_insert_eq. Qed.

Lemma list_at_set_zset key key' z s :
  TransportRedis.list_at key (TransportRedis.set_zset key' z s)
  = TransportRedis.list_at key s.
Proof. done. Qed.

Lemma zset_at_set_list key key' l s :
  TransportRedis.zset_at key (TransportRedis.set_list key' l s)
  = TransportRedis.zset_at key s.
Proof. done. Qed.

(** ** The matching loop *)

Section DispatcherFacts.

Variable factory : Factory.

Lemma hand_out_lookup teams notify z i team job :
  hand_out teams notify z !! i = Some (team, job)
  ↔ teams !! i = Some team ∧ (i < length notify)%nat
    ∧ job = Redis.members z !! i.
Proof.
  revert notify z i.
  induction teams as [|team0 teams IH]; intros notify z i; simpl.
  - rewrite !lookup_nil. split; [done|by intros [? _]].
  - destruct notify as [|v notify]; simpl.
    + rewrite lookup_nil. split; [done|]. intros (_ & ? & _). lia.
    + destruct i as [|i]; simpl.
      * destruct z as [|e z]; simpl; split.
        -- intros [= <- <-]. repeat split. lia.
        -- by intros ([= <-] & _ & ->).
        -- intros [= <- <-]. repeat split. lia.
        -- by intros ([= <-] & _ & ->).
      * rewrite IH. destruct z as [|e z]; simpl.
        -- rewrite !lookup_nil. split; intros (? & ? & ?); repeat split; auto; lia.
        -- split; intros (? & ? & ?); repeat split; auto; lia.
Qed.

(** The orders of the sorted set is the order of the jobs. *)
Lemma hand_out_in_rank_order teams notify z ea eb :
  Redis.zset_wf z → ea ∈ z → eb ∈ z → Redis.entry_lt ea eb →
  never_handed_out_first ea.2 eb.2 (hand_out teams notify z)
  ∧ ((length z ≤ length teams)%nat → (length z ≤ length notify)%nat →
     handed_out_before ea.2 eb.2 (hand_out teams notify z)).
Proof.
  intros [Hsorted Hnodup] Ha Hb Hlt.
  apply list_elem_of_lookup in Ha as [i Hi], Hb as [j Hj].
  assert (Hij : (i < j)%nat) by (by eapply RedisFacts.sorted_rank).
  assert (Hmi : Redis.members z !! i = Some ea.2)
    by (unfold Redis.members; by rewrite list_lookup_fmap, Hi).
  assert (Hmj : Redis.members z !! j = Some eb.2)
    by (unfold Redis.members; by rewrite list_lookup_fmap, Hj).
  split.
  - intros j' team_b Hjob.
    apply hand_out_lookup in Hjob as (Hteam & Hnotify & Hmember).
    assert (j' = j) as -> by (by eapply NoDup_lookup).
    destruct (lookup_lt_is_Some_2 teams i) as [team_a Hteam_a].
    { apply lookup_lt_Some in Hteam. lia. }
    exists i, team_a. split; [done|].
    apply hand_out_lookup. repeat split; [done|lia|done].
  - intros Hteams Hnotify.
    pose proof (lookup_lt_Some _ _ _ Hi). pose proof (lookup_lt_Some _ _ _ Hj).
    destruct (lookup_lt_is_Some_2 teams i) as [team_a Hteam_a]; [lia|].
    destruct (lookup_lt_is_Some_2 teams j) as [team_b Hteam_b]; [lia|].
    exists i, j, team_a, team_b. split; [done|].
    split; apply hand_out_lookup; repeat split; auto; lia.
Qed.

Lemma delegated_app tr1 tr2 : delegated (tr1 ++ tr2) = delegated tr1 ++ delegated tr2.
Proof. apply omap_app. Qed.

(** A pass of [getNextJob] with an empty notify list blocks. *)
Lemma getNextJob_blocks type w :
  TransportRedis.list_at (Keys.typeKey factory type) (store w) = [] →
  (Dispatcher.getNextJob factory type w).1 = Pending.
Proof.
  intros Hlist.
  unfold Dispatcher.getNextJob, sequence, TransportRedis.blockPop, then_, read.
  simpl. by rewrite Hlist.
Qed.

(** A pass with a notify entry and an idle team pops both structures
    and hands the first member of the sorted set to the first team. *)
Lemma getNextJob_hands_over type w v l team rest :
  TransportRedis.list_at (Keys.typeKey factory type) (store w) = v :: l →
  waitlist w !! type = Some (team :: rest) →
  ∃ w',
    Dispatcher.getNextJob factory type w = (Resolved tt, w')
    ∧ TransportRedis.list_at (Keys.typeKey factory type) (store w') = l
    ∧ TransportRedis.zset_at (Keys.waitKey factory type) (store w')
      = tail (TransportRedis.zset_at (Keys.waitKey factory type) (store w))
    ∧ waitlist w' !! type = Some rest
    ∧ ticks w' = ticks w ++ match rest with [] => [] | _ :: _ => [type] end
    ∧ delegated (trace w')
      = delegated (trace w)
        ++ [(team, head (Redis.members
                           (TransportRedis.zset_at (Keys.waitKey factory type)
                              (store w))))].
Proof.
  intros Hlist Hwait.
  unfold Dispatcher.getNextJob, sequence, TransportRedis.blockPop,
    TransportRedis.sortedPop, Dispatcher.runTask, then_, read.
  simpl. rewrite Hlist. simpl. rewrite Hwait. simpl.
  destruct rest as [|team' rest]; simpl;
    (eexists; split; [reflexivity|]); simpl;
    rewrite list_at_set_zset, list_at_set_list, zset_at_set_zset,
      !zset_at_set_list, lookup_insert_eq, !delegated_app;
    simpl; rewrite ?app_nil_r;
    by destruct (TransportRedis.zset_at _ _).
Qed.

Lemma run_no_ticks fuel w : ticks w = [] → Dispatcher.run factory fuel w = w.
Proof. intros Hticks. destruct fuel; simpl; by rewrite ?Hticks. Qed.

(** The loop of one type, started with its idle teams, hands out
    [hand_out]. *)
Lemma run_hands_out type teams :
  ∀ fuel w,
    teams ≠ [] →
    ticks w = [type] →
    waitlist w !! type = Some teams →
    (length teams ≤ fuel)%nat →
    delegated (trace (Dispatcher.run factory fuel w))
    = delegated (trace w)
      ++ hand_out teams
           (TransportRedis.list_at (Keys.typeKey factory type) (store w))
           (TransportRedis.zset_at (Keys.waitKey factory type) (store w)).
Proof.
  induction teams as [|team rest IH]; intros fuel w Hne Hticks Hwait Hfuel; [done|].
  destruct fuel as [|fuel]; simpl in Hfuel; [lia|].
  simpl. rewrite Hticks.
  destruct (TransportRedis.list_at (Keys.typeKey factory type) (store w))
    as [|v l] eqn:Hlist.
  - pose proof (getNextJob_blocks type (with_ticks (λ _, []) w) Hlist) as Hblocks.
    destruct (Dispatcher.getNextJob _ _ _) as [o w']. simpl in Hblocks. subst o.
    rewrite run_no_ticks by done. simpl. by rewrite app_nil_r.
  - destruct (getNextJob_hands_over type (with_ticks (λ _, []) w) v l team rest
                Hlist Hwait)
      as (w' & -> & Hlist' & Hzset' & Hwait' & Hticks' & Htrace').
    simpl in *. destruct rest as [|team' rest].
    + rewrite run_no_ticks by done. by rewrite Htrace'.
    + rewrite IH by (done || lia). by rewrite Htrace', Hlist', Hzset', <- app_assoc.
Qed.

(** Teams of one type registering while none is waiting: the loop is
    started once, and the waitlist is the teams in their order. *)
Lemma delegate_all_joins type teams :
  ∀ w queue,
    queue ≠ [] →
    waitlist w !! type = Some queue →
    Forall (λ team, team_name team = type) teams →
    ∃ w', delegate_all teams w = (Resolved tt, w')
      ∧ store w' = store w ∧ trace w' = trace w ∧ ticks w' = ticks w
      ∧ waitlist w' !! type = Some (queue ++ teams).
Proof.
  induction teams as [|team rest IH]; intros w queue Hne Hwait Hteams.
  - exists w. by rewrite app_nil_r.
  - apply Forall_cons in Hteams as [Hname Hteams].
    simpl. unfold then_ at 1, Dispatcher.delegate, then_, read, update.
    simpl. rewrite Hname, Hwait. simpl.
    destruct queue as [|team0 queue]; [done|].
    edestruct (IH (with_waitlist <[type := (team0 :: queue) ++ [team]]> w)
                 ((team0 :: queue) ++ [team]))
      as (w' & Hrun & Hstore & Htrace & Hticks & Hwait'); [done| |done|].
    { simpl. by rewrite lookup_insert_eq. }
    exists w'. by rewrite <- app_assoc in Hwait'.
Qed.

Lemma delegate_all_starts type team teams w :
  default [] (waitlist w !! type) = [] →
  Forall (λ team, team_name team = type) (team :: teams) →
  ∃ w', delegate_all (team :: teams) w = (Resolved tt, w')
    ∧ store w' = store w ∧ trace w' = trace w
    ∧ ticks w' = ticks w ++ [type]
    ∧ waitlist w' !! type = Some (team :: teams).
Proof.
  intros Hidle Hteams. apply Forall_cons in Hteams as [Hname Hteams].
  simpl. unfold then_ at 1, Dispatcher.delegate, then_, read, update.
  simpl. rewrite Hname, Hidle. simpl.
  edestruct (delegate_all_joins type teams
               (with_ticks (λ q, q ++ [type]) (with_waitlist <[type := [team]]> w))
               [team])
    as (w' & Hrun & Hstore & Htrace & Hticks & Hwait'); [done| |done|].
  { simpl. by rewrite lookup_insert_eq. }
  by exists w'.
Qed.

End DispatcherFacts.

(** ** Routing *)

Section RoutingFacts.

Variable JSON_parse : string → Error + Json.
Variable emit : Task → list Arg → option Error.

Lemma routeMessage_try_settles channel message w :
  (Dispatcher.routeMessage_try JSON_parse emit channel message w).1 ≠ Pending.
Proof.
  unfold Dispatcher.routeMessage_try.
  destruct (JSON_parse message) as [err|[|id event args]]; [done..|].
  unfold then_, read; simpl.
  destruct (Dispatcher.lookup _ w) as [task| |]; [|done..].
  destruct (emit task args); [done|].
  case_bool_decide; [done|].
  destruct (m_removeAfter _); [|done].
  by destruct (_ || _).
Qed.

Lemma routeMessage_resolves channel message w :
  ∃ w', Dispatcher.routeMessage JSON_parse emit channel message w
        = (Resolved tt, w').
Proof.
  pose proof (routeMessage_try_settles channel message w) as Hsettles.
  unfold Dispatcher.routeMessage.
  destruct (Dispatcher.routeMessage_try _ _ _ _ w) as [[[]|err|] w'];
    simpl in *; by eauto.
Qed.

(** After any message, the router handles the next ones as well. *)
Lemma routeMessages_all_handled messages w :
  ∃ w', routeMessages JSON_parse emit messages w = (Resolved tt, w').
Proof.
  revert w; induction messages as [|[channel message] rest IH]; intros w.
  - by eexists.
  - simpl. unfold then_ at 1.
    destruct (routeMessage_resolves channel message w) as [w' ->].
    apply IH.
Qed.

Lemma console_app tr1 tr2 : console (tr1 ++ tr2) = console tr1 ++ console tr2.
Proof. apply omap_app. Qed.

(** C9: whatever the message is, [routeMessage] returns normally: it
    resolves, never rejects and never stays pending.  Every failure is
    logged and changes nothing else: a message that is not JSON (the
    error of [JSON.parse]), one that is [null], one whose id names
    something the watch list inherits, which is no task, and a listener
    that throws (its error).  An id that is simply not watched, and a
    routing that goes through, log nothing.  The messages that follow
    are handled as well. *)
Theorem routeMessage_never_throws channel message w :
  ∃ w',
    Dispatcher.routeMessage JSON_parse emit channel message w = (Resolved tt, w')
    ∧ match JSON_parse message with
      | inl err => w' = log (ConsoleLog "Error" err) w
      | inr JNull =>
          w' = log (ConsoleLog "Error"
                      (TypeError "Cannot read property 'id' of null")) w
      | inr (JObject id event args) =>
          match Dispatcher.lookup (Dispatcher.property_key id) w with
          | Dispatcher.Watched task =>
              match emit task args with
              | Some err => w' = log (ConsoleLog "Error" err) w
              | None => console (trace w') = console (trace w)
              end
          | Dispatcher.Inherited =>
              w' = log (ConsoleLog "Error"
                          (TypeError "Cannot read property 'apply' of undefined")) w
          | Dispatcher.Missing => w' = w
          end
      end
    ∧ ∀ messages,
        ∃ w'', routeMessages JSON_parse emit messages w' = (Resolved tt, w'').
Proof.
  assert (Hrun : ∃ w',
    Dispatcher.routeMessage JSON_parse emit channel message w = (Resolved tt, w')
    ∧ match JSON_parse message with
      | inl err => w' = log (ConsoleLog "Error" err) w
      | inr JNull =>
          w' = log (ConsoleLog "Error"
                      (TypeError "Cannot read property 'id' of null")) w
      | inr (JObject id event args) =>
          match Dispatcher.lookup (Dispatcher.property_key id) w with
          | Dispatcher.Watched task =>
              match emit task args with
              | Some err => w' = log (ConsoleLog "Error" err) w
              | None => console (trace w') = console (trace w)
              end
          | Dispatcher.Inherited =>
              w' = log (ConsoleLog "Error"
                          (TypeError "Cannot read property 'apply' of undefined")) w
          | Dispatcher.Missing => w' = w
          end
      end).
  { unfold Dispatcher.routeMessage, Dispatcher.routeMessage_try.
    destruct (JSON_parse message) as [err|[|id event args]];
      [by eexists..|].
    unfold then_, read; simpl.
    destruct (Dispatcher.lookup _ w) as [task| |]; [|by eexists..].
    destruct (emit task args) as [err|]; [by eexists|].
    case_bool_decide; [by eexists|].
    destruct (m_removeAfter _) as [seconds|]; [|by eexists].
    destruct (_ || _); simpl; (eexists; split; [reflexivity|]); [|done].
    simpl. rewrite console_app. simpl. by rewrite app_nil_r. }
  destruct Hrun as (w' & Hrun & Hlogged).
  exists w'. split; [done|]. split; [done|].
  intros messages. apply routeMessages_all_handled.
Qed.

End RoutingFacts.

(** ** The progress getter *)

(** C10: with no argument, [progress()] is [parseFloat] of the method,
    hence NaN, whatever progress the task has stored. *)
Theorem progress_getter_is_NaN (factory : Factory) (text : string)
    (den : option float) (t : Task) :
  Task.progress factory text None den t = inl NaN.
Proof. reflexivity. Qed.

Example parseFloat_reads_numbers :
  ParseFloat.of_string "  42.5px" = Fin 42.5
  ∧ ParseFloat.of_string "-1e2" = Fin (-100)
  ∧ ParseFloat.of_string "+Infinity" = PosInf
  ∧ ParseFloat.of_string "px" = NaN.
Proof. vm_compute. done. Qed.

(** ** Progress, success and failure *)

Section TaskFacts.

Variable factory : Factory.

Lemma announce_spec event args t w :
  event ≠ "" →
  Task.announce factory event args t w
  = (Resolved tt, log (announcement factory event args t) w).
Proof.
  intros Hevent. unfold Task.announce, announcement.
  destruct (_ || _); [|done].
  unfold Task.broadcast, Dispatcher.broadcast.
  by rewrite bool_decide_eq_false_2.
Qed.

Lemma finalize_spec state progress err t w :
  ∃ w', Task.finalize factory state progress err t w
        = (Resolved (Task.with_metadata (finalized state progress err (t_metadata t)) t), w')
    ∧ trace w' = trace w ++ finalize_effects factory state progress err t.
Proof.
  unfold Task.finalize, Task.expireFunction, finalize_effects, finalized.
  destruct (m_removeAfter (t_metadata t)) as [expires|] eqn:Hexpires; simpl;
    rewrite ?Hexpires; unfold then_; simpl;
    (eexists; split; [reflexivity|]); simpl;
    by rewrite <- ?app_assoc.
Qed.

(** [finalize] reads nothing of the world but the store. *)
Lemma finalize_store state progress err t w1 w2 :
  store w1 = store w2 →
  store (Task.finalize factory state progress err t w1).2
  = store (Task.finalize factory state progress err t w2).2.
Proof.
  intros Hstore. unfold Task.finalize, Task.expireFunction.
  destruct (m_removeAfter (t_metadata t)); simpl; unfold then_; simpl;
    by rewrite Hstore.
Qed.

Lemma announce_store event args t w :
  store (Task.announce factory event args t w).2 = store w.
Proof.
  unfold Task.announce, Task.broadcast, Dispatcher.broadcast, Task.emit.
  destruct (_ || _); [|done]. by case_bool_decide.
Qed.

(** C5, as amended: [progress(100)] and [success()] leave the same task
    object and the same store, with state success and progress 100
    written to the record by the same commands; but the first announces
    a [progress] event and the second a [success] event. *)
Theorem progress_100_persists_as_success t w :
  ∃ t' w1 w2 commands,
    progress_set factory JS.hundred None t w = (Resolved t', w1)
    ∧ Task.success factory t w = (Resolved t', w2)
    ∧ store w1 = store w2
    ∧ m_state (t_metadata t') = Success
    ∧ m_progress (t_metadata t') = Some JS.hundred
    ∧ metadata_written commands = [(t_key t, JSON.metadata (t_metadata t'))]
    ∧ m_state (JSON.metadata (t_metadata t')) = Success
    ∧ m_progress (JSON.metadata (t_metadata t')) = Some JS.hundred
    ∧ trace w1 = trace w ++ announcement factory "progress" [ANum JS.hundred] t :: commands
    ∧ trace w2 = trace w ++ announcement factory "success" [] t :: commands.
Proof.
  unfold progress_set, Task.progress, Task.success, Task.deactivate.
  change (JS.Math_min JS.hundred JS.hundred) with JS.hundred.
  change (100 =? JS.hundred)%float with true. cbv iota.
  unfold then_, resolve. rewrite !announce_spec by done.
  destruct (finalize_spec Success (Some JS.hundred) None t
              (log (announcement factory "progress" [ANum JS.hundred] t) w))
    as (w1 & Hrun1 & Htrace1).
  destruct (finalize_spec Success (Some JS.hundred) None t
              (log (announcement factory "success" [] t) w))
    as (w2 & Hrun2 & Htrace2).
  pose proof (finalize_store Success (Some JS.hundred) None t
                (log (announcement factory "progress" [ANum JS.hundred] t) w)
                (log (announcement factory "success" [] t) w) eq_refl) as Hstore.
  rewrite Hrun1, Hrun2 in Hstore |- *. simpl in *.
  eexists _, w1, w2, (finalize_effects factory Success (Some JS.hundred) None t).
  repeat split; [done|..].
  - unfold finalize_effects, metadata_written. rewrite !omap_app.
    by destruct (m_removeAfter _).
  - by rewrite Htrace1, <- app_assoc.
  - by rewrite Htrace2, <- app_assoc.
Qed.

(** [Math.min(x, 100)] is not above 100; nor is what is written of it. *)
Lemma Math_min_at_most_100 (x : float) :
  (100 <? JS.Math_min x JS.hundred)%float = false.
Proof.
  unfold JS.Math_min, JS.hundred.
  destruct (is_nan x || is_nan 100); [done|].
  destruct (100 <? x)%float eqn:Hlt; [done|].
  destruct (100 =? x)%float; [|done].
  by destruct (get_sign x).
Qed.

Lemma number_at_most_100 (x p : float) :
  (100 <? x)%float = false → JSON.number x = Some p → (100 <? p)%float = false.
Proof.
  unfold JSON.number. intros Hx.
  destruct (is_finite x); [|done].
  destruct (is_zero x); intros [= <-]; done.
Qed.

Lemma info_spec changes t w :
  Task.info changes t w
  = (Resolved (Task.with_metadata (Task.merge changes (t_metadata t)) t),
     with_store
       (λ s, TransportRedis.set_hash (t_key t)
               (<["metadata" :=
                    FMetadata (JSON.metadata (Task.merge changes (t_metadata t)))]>
                  (TransportRedis.hash_at (t_key t) s)) s)
       (log (HSET (t_key t) "metadata"
               (FMetadata (JSON.metadata (Task.merge changes (t_metadata t))))) w)).
Proof. reflexivity. Qed.

(** C7, as amended: the progress setter gives the task
    [Math.min(value, 100)] (of [100 * value / total] when a total is
    given), in double precision, or 100 through [finalize] when that
    equals 100, and writes it to the record as JSON does, [null] when
    it is not finite; neither the progress of the object nor the one
    written is ever above 100.  No lower bound is applied. *)
Theorem progress_setter_never_above_100 num den t w :
  ∃ t' w' stored commands,
    progress_set factory num den t w = (Resolved t', w')
    ∧ trace w' = trace w
                 ++ announcement factory "progress" [ANum (normalized num den)] t
                 :: commands
    ∧ metadata_written commands = [(t_key t, JSON.metadata (t_metadata t'))]
    ∧ m_progress (t_metadata t') = Some stored
    ∧ stored = (if (100 =? normalized num den)%float
                then JS.hundred else normalized num den)
    ∧ (100 <? stored)%float = false
    ∧ m_progress (JSON.metadata (t_metadata t')) = JSON.number stored
    ∧ ∀ p, JSON.number stored = Some p → (100 <? p)%float = false.
Proof.
  assert (Hnormalized :
    match den with
    | None => JS.Math_min num JS.hundred
    | Some den => JS.Math_min (100 * num / den)%float JS.hundred
    end = normalized num den) by done.
  unfold progress_set, Task.progress. rewrite Hnormalized.
  assert (Hupper : (100 <? normalized num den)%float = false)
    by (destruct den; apply Math_min_at_most_100).
  unfold then_. rewrite announce_spec by done.
  destruct (100 =? normalized num den)%float eqn:Hfull.
  - destruct (finalize_spec Success (Some JS.hundred) None t
      (log (announcement factory "progress" [ANum (normalized num den)] t) w))
      as (w' & -> & Htrace).
    eexists _, w', JS.hundred, _. split; [done|].
    split; [by rewrite Htrace; simpl; rewrite <- app_assoc|].
    split.
    { unfold finalize_effects, metadata_written. rewrite !omap_app.
      by destruct (m_removeAfter _). }
    do 4 (split; [done|]).
    intros p. by apply number_at_most_100.
  - rewrite info_spec. eexists _, _, (normalized num den), [_].
    split; [reflexivity|].
    split; [by simpl; rewrite <- app_assoc|].
    do 5 (split; [done|]).
    intros p. by apply number_at_most_100.
Qed.

(** ** Queueing and saving *)

Lemma ranked_zset t p w :
  TransportRedis.zset_at (Keys.waitKey factory (t_type t)) (store (ranked factory t p w))
  = Redis.zadd (-1 * p) (t_id t)
      (TransportRedis.zset_at (Keys.waitKey factory (t_type t)) (store w)).
Proof. unfold ranked; simpl. by rewrite zset_at_set_zset. Qed.

#[local] Arguments Task.queue : simpl never.

Lemma queued_zset t p w :
  TransportRedis.zset_at (Keys.waitKey factory (t_type t)) (store (queued factory t p w))
  = Redis.zadd (-1 * p) (t_id t)
      (TransportRedis.zset_at (Keys.waitKey factory (t_type t)) (store w)).
Proof.
  unfold queued, ranked, TransportRedis.zset_at at 1; simpl.
  by rewrite lookup_insert_eq.
Qed.

Lemma queued_list t p w :
  TransportRedis.list_at (Keys.typeKey factory (t_type t)) (store (queued factory t p w))
  = TransportRedis.list_at (Keys.typeKey factory (t_type t)) (store w) ++ [t_id t].
Proof.
  unfold queued, ranked, TransportRedis.list_at at 1; simpl.
  by rewrite lookup_insert_eq.
Qed.

Lemma queued_trace t p w :
  trace (queued factory t p w)
  = trace w ++ [ZADD (Keys.waitKey factory (t_type t)) [(-1 * p, t_id t)];
                RPUSH (Keys.typeKey factory (t_type t)) [t_id t]].
Proof. unfold queued, ranked; simpl. by rewrite <- app_assoc. Qed.

Lemma queue_returns t p w :
  (Task.priority factory None t).1 = Some (PriorityOf p) →
  Task.queue factory t w = (Resolved (RSeq [RNil; ROk; ROk]), queued factory t p w).
Proof. intros Hp. unfold Task.queue. by rewrite Hp. Qed.

Lemma priority_returns t p :
  m_priority (t_metadata t) = Some (PriorityOf p) →
  (Task.priority factory None t).1 = Some (PriorityOf p).
Proof. intros Hp. unfold Task.priority. by rewrite Hp. Qed.

Lemma queue_spec t p w :
  m_priority (t_metadata t) = Some (PriorityOf p) →
  Task.queue factory t w = (Resolved (RSeq [RNil; ROk; ROk]), queued factory t p w).
Proof. intros Hp. by apply queue_returns, priority_returns. Qed.

(** Without a number for its priority the task is not queued: the
    sorted add rejects and nothing is changed. *)
Lemma queue_rejects t w :
  (∀ p, (Task.priority factory None t).1 ≠ Some (PriorityOf p)) →
  ∃ e, Task.queue factory t w = (Rejected e, w).
Proof.
  intros Hp. unfold Task.queue.
  destruct (Task.priority factory None t).1 as [[p| |]|] eqn:Hreturned;
    [by destruct (Hp p)|by eexists..].
Qed.

(** The uid check of [save()] passes, and changes nothing, exactly
    when the task has no uid or its uid is not reserved. *)
Lemma check_spec t w :
  (Task.uidFunctions factory t).1 tt w
  = match t_uid t with
    | Some uid =>
        match TransportRedis.hash_at (Keys.uidKey factory (t_type t)) (store w) !! uid with
        | Some _ => (Rejected (DuplicateKey (t_type t) uid), w)
        | None => (Resolved ROk, w)
        end
    | None => (Resolved RNil, w)
    end.
Proof.
  unfold Task.uidFunctions. destruct (t_uid t) as [uid|]; [|done]. simpl.
  unfold lacksTask, then_, read. by destruct (_ !! uid).
Qed.

Lemma save_unfold t w :
  Task.save factory t w
  = match (Task.uidFunctions factory t).1 tt w with
    | (Resolved r1, w1) =>
        match Task.queue factory t (stored t w1) with
        | (Resolved r3, w3) =>
            (Resolved [r1; ROk; r3; match t_uid t with Some _ => ROk | None => RNil end],
             reserved factory t w3)
        | (Rejected e, w3) => (Rejected e, w3)
        | (Pending, w3) => (Pending, w3)
        end
    | (Rejected e, w1) => (Rejected e, w1)
    | (Pending, w1) => (Pending, w1)
    end.
Proof.
  unfold Task.save, Task.seq, sequence, then_ at 1.
  destruct ((Task.uidFunctions factory t).1 tt w) as [[r1|e|] w1]; [|done..].
  unfold then_ at 1 2. unfold stored. simpl.
  unfold then_ at 1 2.
  destruct (Task.queue factory t _) as [[r3|e|] w3]; [|done..].
  unfold reserved, Task.uidFunctions, then_, resolve.
  by destruct (t_uid t).
Qed.

(** A [save()] that resolves has passed the uid check, written the
    record, queued the task and reserved the uid, in that order. *)
Lemma save_inv t w r w' :
  Task.save factory t w = (Resolved r, w') →
  ∃ p, (Task.priority factory None t).1 = Some (PriorityOf p)
       ∧ (∀ uid, t_uid t = Some uid →
            TransportRedis.hash_at (Keys.uidKey factory (t_type t)) (store w) !! uid
            = None)
       ∧ w' = reserved factory t (queued factory t p (stored t w)).
Proof.
  rewrite save_unfold, check_spec.
  assert (Hqueue : ∀ w1 r' w'',
    match Task.queue factory t (stored t w1) with
    | (Resolved r3, w3) =>
        (Resolved [r'; ROk; r3; match t_uid t with Some _ => ROk | None => RNil end],
         reserved factory t w3)
    | (Rejected e, w3) => (Rejected e, w3)
    | (Pending, w3) => (Pending, w3)
    end = (Resolved r, w'') →
    ∃ p, (Task.priority factory None t).1 = Some (PriorityOf p)
         ∧ w'' = reserved factory t (queued factory t p (stored t w1))).
  { intros w1 r' w''.
    destruct (Task.priority factory None t).1 as [[p| |]|] eqn:Hreturned.
    - rewrite (queue_returns t p) by done. intros [= _ <-]. by exists p.
    - destruct (queue_rejects t (stored t w1)) as [e ->]; [by rewrite Hreturned|done].
    - destruct (queue_rejects t (stored t w1)) as [e ->]; [by rewrite Hreturned|done].
    - destruct (queue_rejects t (stored t w1)) as [e ->]; [by rewrite Hreturned|done]. }
  destruct (t_uid t) as [uid|].
  - destruct (_ !! uid) eqn:Hfree; [done|].
    intros Hrun. apply Hqueue in Hrun as (p & Hp & ->).
    exists p. split; [done|]. split; [|done]. by intros ? [= <-].
  - intros Hrun. apply Hqueue in Hrun as (p & Hp & ->).
    exists p. by repeat split.
Qed.

(** A [save()] resolves when the priority of the task is a number and
    its uid, if it has one, is free. *)
Lemma save_resolves t p w :
  (Task.priority factory None t).1 = Some (PriorityOf p) →
  (∀ uid, t_uid t = Some uid →
     TransportRedis.hash_at (Keys.uidKey factory (t_type t)) (store w) !! uid = None) →
  ∃ r, Task.save factory t w
       = (Resolved r, reserved factory t (queued factory t p (stored t w))).
Proof.
  intros Hp Hfree. rewrite save_unfold, check_spec.
  destruct (t_uid t) as [uid|].
  - rewrite (Hfree uid eq_refl), (queue_returns t p) by done. by eexists.
  - rewrite (queue_returns t p) by done. by eexists.
Qed.

(** A [save()] of a task whose uid is reserved stops at the check: it
    rejects with the duplicate-key error and changes nothing. *)
Lemma save_rejects_reserved t uid w :
  t_uid t = Some uid →
  is_Some (TransportRedis.hash_at (Keys.uidKey factory (t_type t)) (store w) !! uid) →
  Task.save factory t w = (Rejected (DuplicateKey (t_type t) uid), w).
Proof.
  intros Huid [id Hreserved]. rewrite save_unfold, check_spec.
  by rewrite Huid, Hreserved.
Qed.

(** C3: in a [save()] that resolves, the id is in the sorted set of
    its type (under the negated priority) when the push on the notify
    list is issued: the record is written, then ZADD, then RPUSH, then
    the uid is reserved. *)
Theorem save_ranks_before_notifying t w r w' :
  Task.save factory t w = (Resolved r, w') →
  ∃ p,
    (Task.priority factory None t).1 = Some (PriorityOf p)
    ∧ let w1 := ranked factory t p (stored t w) in
      let w2 := queued factory t p (stored t w) in
      let waitKey := Keys.waitKey factory (t_type t) in
      let typeKey := Keys.typeKey factory (t_type t) in
      w' = reserved factory t w2
      ∧ t_id t ∈ Redis.members (TransportRedis.zset_at waitKey (store w1))
      ∧ TransportRedis.list_at typeKey (store w1)
        = TransportRedis.list_at typeKey (store w)
      ∧ TransportRedis.list_at typeKey (store w2)
        = TransportRedis.list_at typeKey (store w) ++ [t_id t]
      ∧ trace w'
        = trace w
          ++ [HMSET (t_key t) (Task.serialize t);
              ZADD waitKey [(-1 * p, t_id t)];
              RPUSH typeKey [t_id t]]
          ++ match t_uid t with
             | Some uid =>
                 [HSET (Keys.uidKey factory (t_type t)) uid (FString (t_id t))]
             | None => []
             end.
Proof.
  intros Hsave. apply save_inv in Hsave as (p & Hp & _ & ->).
  exists p. split; [done|]. cbv zeta. split; [done|].
  split; [|split; [|split]].
  - rewrite ranked_zset. apply RedisFacts.zadd_member.
  - done.
  - unfold queued. simpl. by rewrite list_at_set_list.
  - unfold reserved, Task.uidFunctions.
    destruct (t_uid t); simpl; rewrite <- !app_assoc; done.
Qed.

(** A [save()] that does not resolve has pushed nothing on a notify
    list: it stops at the uid check, before any command, or at the
    sorted add. *)
Lemma save_unresolved_never_notifies t w :
  is_resolved (Task.save factory t w).1 = false →
  trace (Task.save factory t w).2 = trace w
  ∨ trace (Task.save factory t w).2
    = trace w ++ [HMSET (t_key t) (Task.serialize t)].
Proof.
  rewrite save_unfold, check_spec.
  assert (Hqueue :
    is_resolved
      (match Task.queue factory t (stored t w) with
       | (Resolved r3, w3) =>
           (Resolved [match t_uid t with Some _ => ROk | None => RNil end; ROk; r3;
                      match t_uid t with Some _ => ROk | None => RNil end],
            reserved factory t w3)
       | (Rejected e, w3) => (Rejected e, w3)
       | (Pending, w3) => (Pending, w3)
       end).1 = false →
    trace (match Task.queue factory t (stored t w) with
           | (Resolved r3, w3) =>
               (Resolved [match t_uid t with Some _ => ROk | None => RNil end; ROk; r3;
                          match t_uid t with Some _ => ROk | None => RNil end],
                reserved factory t w3)
           | (Rejected e, w3) => (Rejected e, w3)
           | (Pending, w3) => (Pending, w3)
           end).2
    = trace w ++ [HMSET (t_key t) (Task.serialize t)]).
  { destruct (Task.priority factory None t).1 as [[p| |]|] eqn:Hreturned.
    - by rewrite (queue_returns t p).
    - by destruct (queue_rejects t (stored t w)) as [e ->]; [by rewrite Hreturned|].
    - by destruct (queue_rejects t (stored t w)) as [e ->]; [by rewrite Hreturned|].
    - by destruct (queue_rejects t (stored t w)) as [e ->]; [by rewrite Hreturned|]. }
  destruct (t_uid t) as [uid|].
  - destruct (_ !! uid); [by left|]. intros Hunresolved. right. by apply Hqueue.
  - intros Hunresolved. right. by apply Hqueue.
Qed.

Lemma stored_id_field t w :
  TransportRedis.hash_at (t_key t) (store (stored t w)) !! "id"
  = Some (FString (t_id t)).
Proof.
  unfold stored, TransportRedis.hash_at at 1. simpl.
  rewrite lookup_insert_eq. simpl. unfold Task.serialize.
  destruct (t_uid t); simpl; by simplify_map_eq.
Qed.

Lemma queued_hashes t p w : hashes (store (queued factory t p w)) = hashes (store w).
Proof. done. Qed.

Lemma reserved_uid t uid w :
  t_uid t = Some uid →
  TransportRedis.hash_at (Keys.uidKey factory (t_type t))
    (store (reserved factory t w)) !! uid
  = Some (FString (t_id t)).
Proof.
  intros Huid. unfold reserved, Task.uidFunctions. rewrite Huid. simpl.
  unfold TransportRedis.hash_at at 1. simpl.
  rewrite lookup_insert_eq. simpl. by rewrite lookup_insert_eq.
Qed.

Lemma reserved_id_field t w :
  TransportRedis.hash_at (t_key t) (store w) !! "id" = Some (FString (t_id t)) →
  TransportRedis.hash_at (t_key t) (store (reserved factory t w)) !! "id"
  = Some (FString (t_id t)).
Proof.
  intros Hid. unfold reserved, Task.uidFunctions.
  destruct (t_uid t) as [uid|]; [|done]. simpl.
  unfold TransportRedis.hash_at at 1. simpl.
  destruct (decide (Keys.uidKey factory (t_type t) = t_key t)) as [Heq|Hne].
  - rewrite Heq, lookup_insert_eq. simpl.
    destruct (decide (uid = "id")) as [->|Hne]; [by rewrite lookup_insert_eq|].
    by rewrite lookup_insert_ne.
  - by rewrite lookup_insert_ne.
Qed.

(** C6, as amended: a [save()] of a task with a uid, made when the uid
    is free and the priority of the task is a number, resolves, leaves
    the record of the task in the store and the uid reserved for its
    id.  A [save()] of a task of the same type and uid made after it,
    or at any later time at which the uid is still reserved, rejects
    with the duplicate-key error and leaves the world as it was: no
    record, no notify entry, no priority entry, no command at all. *)
Theorem second_save_with_same_uid_rejected t1 t2 uid p w :
  t_type t1 = t_type t2 →
  t_uid t1 = Some uid →
  t_uid t2 = Some uid →
  (Task.priority factory None t1).1 = Some (PriorityOf p) →
  TransportRedis.hash_at (Keys.uidKey factory (t_type t1)) (store w) !! uid = None →
  ∃ r w1,
    Task.save factory t1 w = (Resolved r, w1)
    ∧ TransportRedis.hash_at (t_key t1) (store w1) !! "id"
      = Some (FString (t_id t1))
    ∧ TransportRedis.hash_at (Keys.uidKey factory (t_type t1)) (store w1) !! uid
      = Some (FString (t_id t1))
    ∧ Task.save factory t2 w1 = (Rejected (DuplicateKey (t_type t2) uid), w1)
    ∧ ∀ w2,
        is_Some (TransportRedis.hash_at (Keys.uidKey factory (t_type t1)) (store w2)
                 !! uid) →
        Task.save factory t2 w2 = (Rejected (DuplicateKey (t_type t2) uid), w2).
Proof.
  intros Htype Huid1 Huid2 Hp Hfree.
  destruct (save_resolves t1 p w Hp) as [r Hsave].
  { intros uid' Huid'. by assert (uid' = uid) as -> by congruence. }
  pose proof (reserved_uid t1 uid (queued factory t1 p (stored t1 w)) Huid1)
    as Hreserved.
  exists r, (reserved factory t1 (queued factory t1 p (stored t1 w))).
  split; [done|]. split.
  { apply reserved_id_field.
    unfold TransportRedis.hash_at. rewrite queued_hashes.
    apply stored_id_field. }
  split; [done|].
  assert (Hlater : ∀ w2,
    is_Some (TransportRedis.hash_at (Keys.uidKey factory (t_type t1)) (store w2)
             !! uid) →
    Task.save factory t2 w2 = (Rejected (DuplicateKey (t_type t2) uid), w2)).
  { intros w2 Hstill. apply save_rejects_reserved; [done|]. by rewrite <- Htype. }
  split; [|done]. apply Hlater. by rewrite Hreserved.
Qed.

(** Writing the record and reserving the uid touch the hashes only. *)
Lemma stored_frame t w :
  ticks (stored t w) = ticks w
  ∧ waitlist (stored t w) = waitlist w
  ∧ lists (store (stored t w)) = lists (store w)
  ∧ zsets (store (stored t w)) = zsets (store w)
  ∧ delegated (trace (stored t w)) = delegated (trace w).
Proof.
  unfold stored; simpl. rewrite delegated_app; simpl.
  by rewrite app_nil_r.
Qed.

Lemma reserved_frame t w :
  ticks (reserved factory t w) = ticks w
  ∧ waitlist (reserved factory t w) = waitlist w
  ∧ lists (store (reserved factory t w)) = lists (store w)
  ∧ zsets (store (reserved factory t w)) = zsets (store w)
  ∧ delegated (trace (reserved factory t w)) = delegated (trace w).
Proof.
  unfold reserved, Task.uidFunctions.
  destruct (t_uid t); simpl; [|done].
  rewrite delegated_app; simpl. by rewrite app_nil_r.
Qed.

(** What a [save()] that resolves leaves for the dispatcher. *)
Lemma save_queues t w r w' :
  Task.save factory t w = (Resolved r, w') →
  ∃ p, (Task.priority factory None t).1 = Some (PriorityOf p)
    ∧ ticks w' = ticks w
    ∧ waitlist w' = waitlist w
    ∧ delegated (trace w') = delegated (trace w)
    ∧ TransportRedis.list_at (Keys.typeKey factory (t_type t)) (store w')
      = TransportRedis.list_at (Keys.typeKey factory (t_type t)) (store w) ++ [t_id t]
    ∧ TransportRedis.zset_at (Keys.waitKey factory (t_type t)) (store w')
      = Redis.zadd (-1 * p) (t_id t)
          (TransportRedis.zset_at (Keys.waitKey factory (t_type t)) (store w)).
Proof.
  intros Hsave. apply save_inv in Hsave as (p & Hp & _ & ->).
  exists p. split; [done|].
  destruct (reserved_frame t (queued factory t p (stored t w)))
    as (Hticks & Hwait & Hlists & Hzsets & Htrace).
  destruct (stored_frame t w) as (Hticks' & Hwait' & Hlists' & Hzsets' & Htrace').
  pose proof (queued_list t p (stored t w)) as Hlist.
  pose proof (queued_zset t p (stored t w)) as Hzset.
  pose proof (queued_trace t p (stored t w)) as Hqueued.
  split; [by rewrite Hticks|]. split; [by rewrite Hwait|].
  split; [|split].
  - rewrite Htrace, Hqueued, delegated_app, Htrace'. simpl. by rewrite app_nil_r.
  - unfold TransportRedis.list_at in *. by rewrite Hlists, Hlist, Hlists'.
  - unfold TransportRedis.zset_at in *. by rewrite Hzsets, Hzset, Hzsets'.
Qed.

Lemma save_both_inv first second w :
  is_resolved (save_both factory first second w).1 = true →
  ∃ r1 w1 r2 w2,
    Task.save factory first w = (Resolved r1, w1)
    ∧ Task.save factory second w1 = (Resolved r2, w2)
    ∧ save_both factory first second w = (Resolved tt, w2).
Proof.
  unfold save_both, then_, resolve.
  destruct (Task.save factory first w) as [[r1|e1|] w1] eqn:Hfirst;
    simpl; [|done..].
  destruct (Task.save factory second w1) as [[r2|e2|] w2] eqn:Hsecond;
    simpl; [|done..].
  intros _. by exists r1, w1, r2, w2.
Qed.

(** Two tasks of one type, saved one after the other: both are ranked
    in the sorted set of the type, under their negated priorities. *)
Lemma save_both_queues first second p1 p2 w :
  t_type first = t_type second →
  t_id first ≠ t_id second →
  m_priority (t_metadata first) = Some (PriorityOf p1) →
  m_priority (t_metadata second) = Some (PriorityOf p2) →
  Redis.zset_wf (TransportRedis.zset_at (Keys.waitKey factory (t_type first)) (store w)) →
  is_resolved (save_both factory first second w).1 = true →
  ∃ w2,
    save_both factory first second w = (Resolved tt, w2)
    ∧ ticks w2 = ticks w
    ∧ waitlist w2 = waitlist w
    ∧ delegated (trace w2) = delegated (trace w)
    ∧ Redis.zset_wf (TransportRedis.zset_at (Keys.waitKey factory (t_type first)) (store w2))
    ∧ (-1 * p1, t_id first)
      ∈ TransportRedis.zset_at (Keys.waitKey factory (t_type first)) (store w2)
    ∧ (-1 * p2, t_id second)
      ∈ TransportRedis.zset_at (Keys.waitKey factory (t_type first)) (store w2)
    ∧ (length (TransportRedis.zset_at (Keys.waitKey factory (t_type first)) (store w2))
       ≤ length (TransportRedis.zset_at (Keys.waitKey factory (t_type first)) (store w)) + 2)%nat
    ∧ length (TransportRedis.list_at (Keys.typeKey factory (t_type first)) (store w2))
      = (length (TransportRedis.list_at (Keys.typeKey factory (t_type first)) (store w)) + 2)%nat.
Proof.
  intros Htype Hid Hp1 Hp2 Hwf Hresolved.
  apply save_both_inv in Hresolved as (r1 & w1 & r2 & w2 & Hsave1 & Hsave2 & Hboth).
  apply save_queues in Hsave1 as (p1' & Hp1' & Hticks1 & Hwait1 & Htrace1 & Hlist1 & Hzset1).
  apply save_queues in Hsave2 as (p2' & Hp2' & Hticks2 & Hwait2 & Htrace2 & Hlist2 & Hzset2).
  apply priority_returns in Hp1, Hp2.
  assert (p1' = p1) as -> by congruence. assert (p2' = p2) as -> by congruence.
  rewrite <- Htype in Hlist2, Hzset2.
  exists w2. split; [done|].
  split; [congruence|]. split; [congruence|]. split; [congruence|].
  rewrite Hzset2, Hzset1. split; [by do 2 apply RedisFacts.zadd_wf|].
  split; [|split; [|split]].
  - apply RedisFacts.elem_of_zadd. right. split; [|done].
    apply RedisFacts.elem_of_zadd. by left.
  - apply RedisFacts.elem_of_zadd. by left.
  - pose proof (RedisFacts.zadd_length (-1 * p2) (t_id second)
                  (Redis.zadd (-1 * p1) (t_id first)
                     (TransportRedis.zset_at (Keys.waitKey factory (t_type first))
                        (store w)))).
    pose proof (RedisFacts.zadd_length (-1 * p1) (t_id first)
                  (TransportRedis.zset_at (Keys.waitKey factory (t_type first))
                     (store w))).
    lia.
  - rewrite Hlist2, Hlist1, !length_app. simpl. lia.
Qed.

(** ** Failure *)

(** C4, as amended: with attempts left, [failure(err)] announces
    [retry] and puts the id back in the sorted set and the notify list
    of its type; it writes nothing to the record and leaves the task's
    metadata, state included, as it was.  Only with no attempt left
    does it announce [failure] and finalize with state failure. *)
Theorem failure_requeues_or_finalizes err t w maxAttempts p :
  m_maxAttempts (t_metadata t) = Some maxAttempts →
  m_priority (t_metadata t) = Some (PriorityOf p) →
  let waitKey := Keys.waitKey factory (t_type t) in
  let typeKey := Keys.typeKey factory (t_type t) in
  (m_attempts (t_metadata t) < maxAttempts →
   ∃ w', Task.failure factory err t w = (Resolved t, w')
     ∧ trace w' = trace w
                  ++ [announcement factory "retry" [] t;
                      ZADD waitKey [(-1 * p, t_id t)];
                      RPUSH typeKey [t_id t]]
     ∧ t_id t ∈ Redis.members (TransportRedis.zset_at waitKey (store w'))
     ∧ TransportRedis.list_at typeKey (store w')
       = TransportRedis.list_at typeKey (store w) ++ [t_id t]
     ∧ hashes (store w') = hashes (store w))
  ∧ (maxAttempts ≤ m_attempts (t_metadata t) →
     ∃ t' w', Task.failure factory err t w = (Resolved t', w')
       ∧ m_state (t_metadata t') = Failure
       ∧ t_metadata t'
         = finalized Failure None (Some (default "Unknown error" err)) (t_metadata t)
       ∧ trace w' = trace w
                    ++ announcement factory "failure" [] t
                    :: finalize_effects factory Failure None
                         (Some (default "Unknown error" err)) t).
Proof.
  intros Hmax Hp. cbv zeta. unfold Task.failure. rewrite Hmax. split.
  - intros Hleft. apply Z.ltb_lt in Hleft. rewrite Hleft.
    unfold then_ at 1. rewrite announce_spec by done.
    unfold then_. rewrite (queue_spec _ p) by done.
    eexists. split; [reflexivity|].
    split; [by rewrite queued_trace; simpl; rewrite <- !app_assoc|].
    split; [|split; [|done]].
    + rewrite queued_zset. apply RedisFacts.zadd_member.
    + by rewrite queued_list.
  - intros Hnone. apply Z.ltb_ge in Hnone. rewrite Hnone.
    unfold then_ at 1. rewrite announce_spec by done.
    unfold then_, Task.deactivate, resolve.
    destruct (finalize_spec Failure None (Some (default "Unknown error" err)) t
                (log (announcement factory "failure" [] t) w))
      as (w' & -> & Htrace).
    eexists _, w'. split; [done|]. split; [done|]. split; [done|].
    rewrite Htrace. simpl. by rewrite <- app_assoc.
Qed.

(** ** Construction and removal *)

Lemma new_broadcasts id type data options now :
  m_broadcasts (t_metadata (Task.new factory id type data options now))
  = match id with
    | FreshId _ => default ["remove"] (o_broadcasts options)
    | Stored record => m_broadcasts (t_metadata record)
    end.
Proof.
  unfold Task.new, Task.priority.
  destruct id as [id|record]; simpl.
  - by destruct (o_priority options).
  - by destruct (o_priority options), (m_priority (t_metadata record)).
Qed.

(** After the constructor the priority and maxAttempts are defined. *)
Lemma new_priority_defined id type data options now :
  is_Some (m_priority (t_metadata (Task.new factory id type data options now))).
Proof.
  unfold Task.new, Task.priority.
  destruct id as [id|record]; simpl.
  - destruct (o_priority options); simpl; by eexists.
  - destruct (o_priority options), (m_priority (t_metadata record)) eqn:Hp;
      simpl; rewrite ?Hp; simpl; by eexists.
Qed.

Lemma new_maxAttempts_defined id type data options now :
  is_Some (m_maxAttempts (t_metadata (Task.new factory id type data options now))).
Proof. unfold Task.new. simpl. by eexists. Qed.

(** [on] only ever adds to the broadcasts. *)
Lemma on_keeps_broadcasts event event' t w t' w' :
  Task.on factory event t w = (Resolved t', w') →
  event' ∈ m_broadcasts (t_metadata t) → event' ∈ m_broadcasts (t_metadata t').
Proof.
  unfold Task.on, then_, resolve.
  destruct (Dispatcher.watchTask _ _ _) as [[[]|?|] ?]; intros [= <- <-]; [].
  destruct (Task.broadcasts event t); simpl; [done|].
  intros Hin. apply elem_of_app. by left.
Qed.

(** C8, as amended: when the options give no [broadcasts] key, or one
    that still has [remove] (for a stored record: when its broadcasts
    have it), the task's broadcasts contain [remove], and [remove()]
    publishes the [remove] envelope on the events channel and then
    deletes the record, of which nothing is left. *)
Theorem remove_broadcasts_then_deletes id type data options now w :
  keeps_remove id options = true →
  let t := Task.new factory id type data options now in
  "remove" ∈ m_broadcasts (t_metadata t)
  ∧ ∃ w', Task.remove factory t w = (Resolved ROk, w')
      ∧ trace w' = trace w
                   ++ [PUBLISH (Dispatcher.eventsKey factory)
                         {| e_id := t_id t; e_event := "remove";
                            e_args := [AStr "remove"] |};
                       DEL (t_key t)]
      ∧ hashes (store w') !! t_key t = None.
Proof.
  intros Hkeeps t.
  assert (Hin : "remove" ∈ m_broadcasts (t_metadata t)).
  { subst t. rewrite new_broadcasts. unfold keeps_remove in Hkeeps.
    destruct id as [id|record].
    - destruct (o_broadcasts options); simpl.
      + by apply bool_decide_eq_true in Hkeeps.
      + set_solver.
    - by apply bool_decide_eq_true in Hkeeps. }
  split; [done|].
  unfold Task.remove, then_. rewrite announce_spec by done.
  unfold announcement, Task.broadcasts.
  rewrite (bool_decide_eq_true_2 _ Hin), orb_true_r. simpl.
  eexists. split; [reflexivity|]. simpl.
  split; [by rewrite <- app_assoc|]. apply lookup_delete_eq.
Qed.

End TaskFacts.

(** ** The order of delivery *)

Section OrderFacts.

Variable factory : Factory.

(** Two tasks saved in either order and ranked [ea] before [eb] in the
    sorted set of their type: the idle teams of the type get the first
    before the second. *)
Lemma saved_pair_delivered_in_rank_order (first second : Task) (p1 p2 : Z)
    (ea eb : Z * string) (w : World) (team : Team) (teams : list Team)
    (fuel : nat) :
  let waitKey := Keys.waitKey factory (t_type first) in
  let typeKey := Keys.typeKey factory (t_type first) in
  t_type first = t_type second →
  t_id first ≠ t_id second →
  m_priority (t_metadata first) = Some (PriorityOf p1) →
  m_priority (t_metadata second) = Some (PriorityOf p2) →
  (ea = (-1 * p1, t_id first) ∧ eb = (-1 * p2, t_id second)
   ∨ ea = (-1 * p2, t_id second) ∧ eb = (-1 * p1, t_id first)) →
  Redis.entry_lt ea eb →
  Redis.zset_wf (TransportRedis.zset_at waitKey (store w)) →
  ticks w = [] →
  default [] (waitlist w !! t_type first) = [] →
  Forall (λ team, team_name team = t_type first) (team :: teams) →
  (length (team :: teams) ≤ fuel)%nat →
  is_resolved (save_both factory first second w).1 = true →
  ∃ w1 w2 jobs,
    save_both factory first second w = (Resolved tt, w1)
    ∧ delegate_all (team :: teams) w1 = (Resolved tt, w2)
    ∧ delegated (trace (Dispatcher.run factory fuel w2))
      = delegated (trace w) ++ jobs
    ∧ never_handed_out_first ea.2 eb.2 jobs
    ∧ ((length (TransportRedis.zset_at waitKey (store w)) + 2
        ≤ length (team :: teams))%nat →
       (length (TransportRedis.zset_at waitKey (store w))
        ≤ length (TransportRedis.list_at typeKey (store w)))%nat →
       handed_out_before ea.2 eb.2 jobs).
Proof.
  intros waitKey typeKey Htype Hid Hp1 Hp2 Hentries Hlt Hwf Hticks Hidle Hteams
    Hfuel Hresolved.
  destruct (save_both_queues factory first second p1 p2 w Htype Hid Hp1 Hp2 Hwf
              Hresolved)
    as (w1 & Hsaves & Hticks1 & Hwait1 & Htrace1 & Hwf1 & Hin1 & Hin2 & Hlen & Hnotify).
  fold waitKey in Hwf1, Hin1, Hin2, Hlen. fold typeKey in Hnotify.
  destruct (delegate_all_starts (t_type first) team teams w1)
    as (w2 & Hdelegate & Hstore2 & Htrace2 & Hticks2 & Hwait2);
    [by rewrite Hwait1|done|].
  pose proof (run_hands_out factory (t_type first) (team :: teams) fuel w2) as Hrun.
  rewrite Hticks2, Hticks1, Hticks in Hrun.
  specialize (Hrun ltac:(done) eq_refl Hwait2 Hfuel).
  rewrite Htrace2, Htrace1, Hstore2 in Hrun. fold waitKey typeKey in Hrun.
  assert (Hea : ea ∈ TransportRedis.zset_at waitKey (store w1))
    by (by destruct Hentries as [[-> ->]|[-> ->]]).
  assert (Heb : eb ∈ TransportRedis.zset_at waitKey (store w1))
    by (by destruct Hentries as [[-> ->]|[-> ->]]).
  destruct (hand_out_in_rank_order (team :: teams)
              (TransportRedis.list_at typeKey (store w1))
              (TransportRedis.zset_at waitKey (store w1)) ea eb Hwf1 Hea Heb Hlt)
    as [Hnever Hbefore].
  eexists w1, w2, _. split; [done|]. split; [done|]. split; [exact Hrun|].
  split; [done|]. intros Henough Hconsistent. apply Hbefore; lia.
Qed.

(** C1: two tasks of one type, the first with the higher priority, are
    saved in either order while no team of the type is waiting; the
    teams of the type then register as idle and the matching loop runs.
    The id of the lower priority is never handed out unless the id of
    the higher priority was handed out earlier, and with enough idle
    teams (and a notify entry for every ranked id) both are handed out,
    the higher priority first. *)
Theorem higher_priority_delivered_first (A B : Task) (pa pb : Z) (a_first : bool)
    (w : World) (team : Team) (teams : list Team) (fuel : nat) :
  let waitKey := Keys.waitKey factory (t_type A) in
  let typeKey := Keys.typeKey factory (t_type A) in
  let saves := if a_first then save_both factory A B else save_both factory B A in
  t_type A = t_type B →
  t_id A ≠ t_id B →
  m_priority (t_metadata A) = Some (PriorityOf pa) →
  m_priority (t_metadata B) = Some (PriorityOf pb) →
  pb < pa →
  Redis.zset_wf (TransportRedis.zset_at waitKey (store w)) →
  ticks w = [] →
  default [] (waitlist w !! t_type A) = [] →
  Forall (λ team, team_name team = t_type A) (team :: teams) →
  (length (team :: teams) ≤ fuel)%nat →
  is_resolved (saves w).1 = true →
  ∃ w1 w2 jobs,
    saves w = (Resolved tt, w1)
    ∧ delegate_all (team :: teams) w1 = (Resolved tt, w2)
    ∧ delegated (trace (Dispatcher.run factory fuel w2))
      = delegated (trace w) ++ jobs
    ∧ never_handed_out_first (t_id A) (t_id B) jobs
    ∧ ((length (TransportRedis.zset_at waitKey (store w)) + 2
        ≤ length (team :: teams))%nat →
       (length (TransportRedis.zset_at waitKey (store w))
        ≤ length (TransportRedis.list_at typeKey (store w)))%nat →
       handed_out_before (t_id A) (t_id B) jobs).
Proof.
  intros waitKey typeKey saves Htype Hid Hpa Hpb Hlt Hwf Hticks Hidle Hteams
    Hfuel Hresolved.
  assert (Hrank : Redis.entry_lt (-1 * pa, t_id A) (-1 * pb, t_id B))
    by (left; simpl; lia).
  subst saves waitKey typeKey. destruct a_first.
  - apply (saved_pair_delivered_in_rank_order A B pa pb
             (-1 * pa, t_id A) (-1 * pb, t_id B) w team teams fuel);
      auto.
  - rewrite Htype in *.
    apply (saved_pair_delivered_in_rank_order B A pb pa
             (-1 * pa, t_id A) (-1 * pb, t_id B) w team teams fuel);
      auto.
Qed.

(** For equal priorities, what decides is the order of the ids as
    strings: the id that is smaller byte by byte is handed out first,
    whichever task was saved first. *)
Lemma equal_priority_delivered_in_id_order (A B : Task) (p : Z) (a_first : bool)
    (w : World) (team : Team) (teams : list Team) (fuel : nat) :
  let waitKey := Keys.waitKey factory (t_type A) in
  let saves := if a_first then save_both factory A B else save_both factory B A in
  t_type A = t_type B →
  String_as_OT.lt (t_id A) (t_id B) →
  m_priority (t_metadata A) = Some (PriorityOf p) →
  m_priority (t_metadata B) = Some (PriorityOf p) →
  Redis.zset_wf (TransportRedis.zset_at waitKey (store w)) →
  ticks w = [] →
  default [] (waitlist w !! t_type A) = [] →
  Forall (λ team, team_name team = t_type A) (team :: teams) →
  (length (team :: teams) ≤ fuel)%nat →
  is_resolved (saves w).1 = true →
  ∃ w1 w2 jobs,
    saves w = (Resolved tt, w1)
    ∧ delegate_all (team :: teams) w1 = (Resolved tt, w2)
    ∧ delegated (trace (Dispatcher.run factory fuel w2))
      = delegated (trace w) ++ jobs
    ∧ never_handed_out_first (t_id A) (t_id B) jobs.
Proof.
  intros waitKey saves Htype Hid Hpa Hpb Hwf Hticks Hidle Hteams Hfuel Hresolved.
  assert (Hrank : Redis.entry_lt (-1 * p, t_id A) (-1 * p, t_id B))
    by (by right).
  assert (Hne : t_id A ≠ t_id B).
  { intros Heq. rewrite Heq in Hid. by apply RedisFacts.member_lt_irrefl in Hid. }
  subst saves waitKey. destruct a_first.
  - destruct (saved_pair_delivered_in_rank_order A B p p
             (-1 * p, t_id A) (-1 * p, t_id B) w team teams fuel)
      as (w1 & w2 & jobs & ? & ? & ? & ? & _); auto.
    by exists w1, w2, jobs.
  - rewrite Htype in *.
    destruct (saved_pair_delivered_in_rank_order B A p p
             (-1 * p, t_id A) (-1 * p, t_id B) w team teams fuel)
      as (w1 & w2 & jobs & ? & ? & ? & ? & _); auto.
    by exists w1, w2, jobs.
Qed.

End OrderFacts.

(** C5, as stated, fails: for a fresh task the events announced by
    [progress(100)] (one [progress]) are not those of [success()] (one
    [success]). *)
Lemma progress_100_announces_no_success :
  let t := Sample.email "1" None no_options in
  events_announced
    (trace (progress_set Sample.factory JS.hundred None t empty_world).2)
  ≠ events_announced (trace (Task.success Sample.factory t empty_world).2).
Proof. vm_compute. discriminate. Qed.

(** C7, as stated, fails: [progress(-5)] stores -5, which is below 0. *)
Lemma progress_below_0_is_persisted :
  let t := Sample.email "1" None no_options in
  let w := (progress_set Sample.factory (-5)%float None t empty_world).2 in
  m_progress <$> persisted (t_key t) w = Some (Some (-5)%float)
  ∧ within_0_100 (-5)%float = false.
Proof. split; vm_compute; reflexivity. Qed.

(** The setter computes in double precision: [progress(0.17, 0.17)]
    is 99.99999999999999 and does not complete the task; and what is
    not finite is written as [null]: [progress(0, 0)] is NaN for the
    task object and [null] in its record. *)
Example progress_in_double_precision :
  let t := Sample.email "1" None no_options in
  let seventeen := 0x1.5c28f5c28f5c3p-3%float in
  let w1 := (progress_set Sample.factory seventeen (Some seventeen) t empty_world).2 in
  let w2 := (progress_set Sample.factory 0 (Some 0%float) t empty_world).2 in
  normalized seventeen (Some seventeen) = 0x1.8ffffffffffffp+6%float
  ∧ (m_progress <$> persisted (t_key t) w1 = Some (Some 0x1.8ffffffffffffp+6%float)
     ∧ m_state <$> persisted (t_key t) w1 = Some Waiting)
  ∧ normalized 0 (Some 0%float) = nan
  ∧ m_progress <$> persisted (t_key t) w2 = Some None.
Proof. repeat split; vm_compute; reflexivity. Qed.

(** C8, as stated, fails: options with their own [broadcasts] replace
    the constructor's, and [remove()] then only emits locally. *)
Lemma broadcasts_option_drops_remove :
  let t := Sample.email "1" None (Sample.with_broadcasts ["success"]) in
  m_broadcasts (t_metadata t) = ["success"]
  ∧ ("remove" ∉ m_broadcasts (t_metadata t))
  ∧ trace (Task.remove Sample.factory t empty_world).2
    = [Emit "1" "remove" [AStr "remove"]; DEL "q:tasks:1"].
Proof.
  simpl. split; [done|]. split; [|by vm_compute].
  intros Hin. by apply (bool_decide_eq_true_2 _) in Hin.
Qed.

Lemma remove_broadcasts_then_deletes_witness :
  let options := Sample.with_broadcasts ["success"; "remove"] in
  let t := Task.new Sample.factory (FreshId "1") "email" None options 0 in
  keeps_remove (FreshId "1") options = true
  ∧ "remove" ∈ m_broadcasts (t_metadata t)
  ∧ ∃ w', Task.remove Sample.factory t empty_world = (Resolved ROk, w')
      ∧ trace w' = trace empty_world
                   ++ [PUBLISH (Dispatcher.eventsKey Sample.factory)
                         {| e_id := t_id t; e_event := "remove";
                            e_args := [AStr "remove"] |};
                       DEL (t_key t)]
      ∧ hashes (store w') !! t_key t = None.
Proof.
  split; [reflexivity|].
  apply (remove_broadcasts_then_deletes Sample.factory (FreshId "1") "email" None
           (Sample.with_broadcasts ["success"; "remove"]) 0 empty_world).
  reflexivity.
Defined.

(** C4, as stated, fails: a task with two attempts allowed, saved and
    activated once, is requeued by [failure()] with its state still
    active, in the object and in the stored record. *)
Lemma failure_requeues_with_state_active :
  let factory := Sample.factory in
  let t0 := Sample.email "1" None (Sample.with_maxAttempts 2) in
  let w0 := (Task.save factory t0 empty_world).2 in
  ∃ t1 w1 t2 w2 m,
    Task.activate t0 w0 = (Resolved t1, w1)
    ∧ m_attempts (t_metadata t1) = 1
    ∧ m_maxAttempts (t_metadata t1) = Some 2
    ∧ Task.failure factory None t1 w1 = (Resolved t2, w2)
    ∧ events_announced (trace w2) = ["retry"]
    ∧ m_state (t_metadata t2) = Active
    ∧ m_state (t_metadata t2) ≠ Waiting
    ∧ persisted (t_key t2) w2 = Some m
    ∧ m_state m = Active.
Proof.
  eexists _, _, _, _, _.
  split; [by vm_compute|]. split; [done|]. split; [done|].
  split; [by vm_compute|]. split; [by vm_compute|].
  split; [done|]. split; [done|]. split; [by vm_compute|]. done.
Qed.

Lemma failure_requeues_or_finalizes_witness :
  let t := Sample.email "1" None (Sample.with_maxAttempts 2) in
  let w := (Task.save Sample.factory t empty_world).2 in
  let waitKey := Keys.waitKey Sample.factory (t_type t) in
  let typeKey := Keys.typeKey Sample.factory (t_type t) in
  (m_attempts (t_metadata t) < 2 →
   ∃ w', Task.failure Sample.factory None t w = (Resolved t, w')
     ∧ trace w' = trace w
                  ++ [announcement Sample.factory "retry" [] t;
                      ZADD waitKey [(-1 * 0, t_id t)];
                      RPUSH typeKey [t_id t]]
     ∧ t_id t ∈ Redis.members (TransportRedis.zset_at waitKey (store w'))
     ∧ TransportRedis.list_at typeKey (store w')
       = TransportRedis.list_at typeKey (store w) ++ [t_id t]
     ∧ hashes (store w') = hashes (store w))
  ∧ (2 ≤ m_attempts (t_metadata t) →
     ∃ t' w', Task.failure Sample.factory None t w = (Resolved t', w')
       ∧ m_state (t_metadata t') = Failure
       ∧ t_metadata t'
         = finalized Failure None (Some (default "Unknown error" None)) (t_metadata t)
       ∧ trace w' = trace w
                    ++ announcement Sample.factory "failure" [] t
                    :: finalize_effects Sample.factory Failure None
                         (Some (default "Unknown error" None)) t).
Proof.
  apply (failure_requeues_or_finalizes Sample.factory None
           (Sample.email "1" None (Sample.with_maxAttempts 2))
           (Task.save Sample.factory
              (Sample.email "1" None (Sample.with_maxAttempts 2)) empty_world).2
           2 0); reflexivity.
Defined.

Lemma save_ranks_before_notifying_witness :
  let t := Sample.email "1" (Some "welcome-1") no_options in
  let r := [ROk; ROk; RSeq [RNil; ROk; ROk]; ROk] in
  let w' := (Task.save Sample.factory t empty_world).2 in
  Task.save Sample.factory t empty_world = (Resolved r, w')
  ∧ ∃ p, (Task.priority Sample.factory None t).1 = Some (PriorityOf p)
      ∧ t_id t ∈ Redis.members
                   (TransportRedis.zset_at (Keys.waitKey Sample.factory (t_type t))
                      (store (ranked Sample.factory t p (stored t empty_world)))).
Proof.
  assert (Hsave :
    Task.save Sample.factory (Sample.email "1" (Some "welcome-1") no_options)
      empty_world
    = (Resolved [ROk; ROk; RSeq [RNil; ROk; ROk]; ROk],
       (Task.save Sample.factory
          (Sample.email "1" (Some "welcome-1") no_options) empty_world).2))
    by (vm_compute; reflexivity).
  split; [exact Hsave|].
  destruct (save_ranks_before_notifying Sample.factory _ _ _ _ Hsave)
    as (p & Hp & _ & Hranked & _).
  exists p. split; [exact Hp|exact Hranked].
Defined.

(** ** Calls in flight *)

Lemma turns_settled n outcome w :
  turns n (Settled outcome) w = (Settled outcome, w).
Proof. induction n as [|n IH]; [done|]. simpl. apply IH. Qed.

(** A call that has the event loop to itself runs as [sequence] does. *)
Lemma turns_sequence tasks :
  ∀ results w,
    turns (length tasks) (settle (Running tasks results)) w
    = (Settled match (sequence tasks tt w).1 with
               | Resolved rs => Resolved (results ++ rs)
               | Rejected e => Rejected e
               | Pending => Pending
               end,
       (sequence tasks tt w).2).
Proof.
  induction tasks as [|task rest IH]; intros results w.
  - simpl. by rewrite app_nil_r.
  - change (turns (length (task :: rest)) (settle (Running (task :: rest) results)) w)
      with (let '(call', w') := turn (Running (task :: rest) results) w in
            turns (length rest) call' w').
    change (sequence (task :: rest) tt w)
      with (then_ (task tt)
              (λ r, then_ (sequence rest tt) (λ rs, resolve (r :: rs))) w).
    unfold turn, then_ at 1 3.
    destruct (task tt w) as [[r|e|] w1]; [|apply turns_settled..].
    rewrite IH. unfold then_.
    destruct (sequence rest tt w1) as [[rs|e|] w2]; simpl; [|done..].
    by rewrite <- app_assoc.
Qed.

Lemma overlap_first n :
  ∀ order a b w,
    overlap (replicate n true ++ order) a b w
    = overlap order (turns n a w).1 b (turns n a w).2.
Proof.
  induction n as [|n IH]; intros order a b w; [done|].
  simpl. destruct (turn a w) as [a' w']. apply IH.
Qed.

Lemma overlap_second n :
  ∀ a b w,
    overlap (replicate n false) a b w = (a, (turns n b w).1, (turns n b w).2).
Proof.
  induction n as [|n IH]; intros a b w; [done|].
  simpl. destruct (turn b w) as [b' w']. apply IH.
Qed.

(** Two calls of which the second is served only after the first has
    settled run like one [sequence] after the other. *)
Lemma overlap_in_sequence first second w :
  overlap (replicate (length first) true ++ replicate (length second) false)
    (start first) (start second) w
  = (Settled (sequence first tt w).1,
     Settled (sequence second tt (sequence first tt w).2).1,
     (sequence second tt (sequence first tt w).2).2).
Proof.
  rewrite overlap_first, overlap_second. unfold start.
  rewrite !turns_sequence. simpl.
  by destruct (sequence first tt w).1, (sequence second tt _).1.
Qed.

(** C6, as stated, fails: two [save()] calls with the same type and
    uid that are in flight at the same time, the event loop serving
    them in turn, both pass the uid check, which comes before either
    reservation: both resolve, and the second task has its record, its
    notify entry and its rank. *)
Lemma overlapping_saves_both_succeed :
  let t1 := Sample.email "1" (Some "welcome-1") no_options in
  let t2 := Sample.email "2" (Some "welcome-1") no_options in
  let run :=
    overlap [true; false; true; false; true; false; true; false]
      (start (Task.seq Sample.factory t1)) (start (Task.seq Sample.factory t2))
      empty_world in
  let replies := [ROk; ROk; RSeq [RNil; ROk; ROk]; ROk] in
  (t_type t1 = t_type t2 ∧ t_uid t1 = t_uid t2)
  ∧ run.1 = (Settled (Resolved replies), Settled (Resolved replies))
  ∧ TransportRedis.hash_at (t_key t2) (store run.2) !! "id" = Some (FString "2")
  ∧ TransportRedis.list_at (Keys.typeKey Sample.factory "email") (store run.2)
    = ["1"; "2"]
  ∧ Redis.members
      (TransportRedis.zset_at (Keys.waitKey Sample.factory "email") (store run.2))
    = ["1"; "2"].
Proof. repeat split; vm_compute; reflexivity. Qed.

Lemma second_save_with_same_uid_rejected_witness :
  let t1 := Sample.email "1" (Some "welcome-1") no_options in
  let t2 := Sample.email "2" (Some "welcome-1") no_options in
  ∃ r w1,
    Task.save Sample.factory t1 empty_world = (Resolved r, w1)
    ∧ TransportRedis.hash_at (t_key t1) (store w1) !! "id"
      = Some (FString (t_id t1))
    ∧ TransportRedis.hash_at (Keys.uidKey Sample.factory (t_type t1)) (store w1)
        !! "welcome-1"
      = Some (FString (t_id t1))
    ∧ Task.save Sample.factory t2 w1
      = (Rejected (DuplicateKey (t_type t2) "welcome-1"), w1)
    ∧ ∀ w2,
        is_Some (TransportRedis.hash_at (Keys.uidKey Sample.factory (t_type t1))
                   (store w2) !! "welcome-1") →
        Task.save Sample.factory t2 w2
        = (Rejected (DuplicateKey (t_type t2) "welcome-1"), w2).
Proof.
  apply (second_save_with_same_uid_rejected Sample.factory
           (Sample.email "1" (Some "welcome-1") no_options)
           (Sample.email "2" (Some "welcome-1") no_options)
           "welcome-1" 0 empty_world);
    reflexivity.
Defined.

(** C2 fails on the code: ids [9] and [10], both of the default
    priority, are saved in that order; two idle teams then get [10]
    first and [9] second, because the sorted set orders members of one
    score by their bytes and not by their arrival. *)
Theorem equal_priority_not_first_in_first_out :
  let first := Sample.email "9" None no_options in
  let second := Sample.email "10" None no_options in
  let w1 := (save_both Sample.factory first second empty_world).2 in
  let w2 := (delegate_all [Sample.team 1; Sample.team 2] w1).2 in
  m_priority (t_metadata first) = m_priority (t_metadata second)
  ∧ is_resolved (save_both Sample.factory first second empty_world).1 = true
  ∧ is_resolved (delegate_all [Sample.team 1; Sample.team 2] w1).1 = true
  ∧ delegated (trace (Dispatcher.run Sample.factory 2 w2))
    = [(Sample.team 1, Some "10"); (Sample.team 2, Some "9")].
Proof.
  split; [reflexivity|].
  split; [vm_compute; reflexivity|].
  split; vm_compute; reflexivity.
Qed.

Lemma higher_priority_delivered_first_witness :
  let X := Sample.email "2" None (Sample.with_priority (PName "high")) in
  let Y := Sample.email "1" None (Sample.with_priority (PName "medium")) in
  ∃ w1 w2 jobs,
    save_both Sample.factory Y X empty_world = (Resolved tt, w1)
    ∧ delegate_all [Sample.team 1; Sample.team 2] w1 = (Resolved tt, w2)
    ∧ delegated (trace (Dispatcher.run Sample.factory 2 w2)) = jobs
    ∧ never_handed_out_first "2" "1" jobs
    ∧ handed_out_before "2" "1" jobs.
Proof.
  destruct (higher_priority_delivered_first Sample.factory
              (Sample.email "2" None (Sample.with_priority (PName "high")))
              (Sample.email "1" None (Sample.with_priority (PName "medium")))
              10 0 false empty_world (Sample.team 1) [Sample.team 2] 2)
    as (w1 & w2 & jobs & Hsaves & Hdelegate & Hrun & Hnever & Hbefore).
  - reflexivity.
  - discriminate.
  - reflexivity.
  - reflexivity.
  - lia.
  - split; constructor.
  - reflexivity.
  - reflexivity.
  - repeat constructor.
  - simpl. lia.
  - vm_compute. reflexivity.
  - exists w1, w2, jobs. split; [exact Hsaves|]. split; [exact Hdelegate|].
    split; [exact Hrun|]. split; [exact Hnever|].
    apply Hbefore;
      unfold TransportRedis.zset_at, TransportRedis.list_at; simpl;
      rewrite ?lookup_empty; simpl; lia.
Defined.

(** * Further properties *)

(** ** The constructor *)

Section ConstructorFacts.

Variable factory : Factory.


(** A task made with a priority that is the name of something every
    object inherits cannot be saved: its priority is NaN, and the
    sorted add rejects. *)
Example inherited_priority_name_is_NaN :
  let t := Sample.email "1" None (Sample.with_priority (PName "toString")) in
  m_priority (t_metadata t) = Some PriorityNaN
  ∧ is_resolved (Task.save Sample.factory t empty_world).1 = false.
Proof. split; vm_compute; reflexivity. Qed.

Lemma priority_keeps_type arg t : t_type (Task.priority factory arg t).2 = t_type t.
Proof.
  unfold Task.priority.
  by destruct arg as [[?|?]|], (m_priority (t_metadata t)).
Qed.

Lemma priority_defines arg t :
  is_Some (m_priority (t_metadata (Task.priority factory arg t).2)).
Proof.
  unfold Task.priority.
  destruct arg as [[?|?]|], (m_priority (t_metadata t)) eqn:Hp; simpl;
    rewrite ?Hp; by eexists.
Qed.

(** Filling in the defaults and the number of attempts twice is
    filling them in once. *)
Lemma defaults_settle d m :
  is_Some (m_priority m) →
  let m' := Task.ensure_maxAttempts (Task.copy_defaults d m) in
  Task.ensure_maxAttempts (Task.copy_defaults d m') = m'.
Proof.
  intros [p Hp].
  destruct m as [? ? ? ? ? mp mmax mra mall ?], d as [dp dmax dra dall].
  simpl in Hp. subst mp.
  unfold Task.ensure_maxAttempts, Task.copy_defaults. simpl. f_equal.
  - f_equal. destruct mmax as [n|], dmax as [n'|]; simpl;
      repeat match goal with
             | |- context [?n =? 0] => destruct (Z.eqb_spec n 0); simpl
             end; try done; try lia.
  - by destruct mra, dra.
  - by destruct mall, dall.
Qed.

(** X2: the constructor leaves a record it made as it is: a task
    built again from the task the constructor returned, with no
    options, is that task. *)
Theorem new_of_constructed_is_identity id type data options now type' data' now' :
  let t := Task.new factory id type data options now in
  Task.new factory (Stored t) type' data' no_options now' = t.
Proof.
  intros t.
  assert (Hshape : ∃ base,
    is_Some (m_priority (t_metadata base))
    ∧ t = Task.with_metadata
            (Task.ensure_maxAttempts
               (Task.copy_defaults (Task.defaults factory (t_type base))
                  (t_metadata base))) base).
  { subst t. unfold Task.new.
    match goal with
    | |- context [Task.priority factory (o_priority options) ?this] =>
        exists (Task.priority factory (o_priority options) this).2
    end.
    split; [apply priority_defines|]. by destruct (Task.priority _ _ _).2. }
  destruct Hshape as (base & Hp & Ht).
  assert (Hpt : is_Some (m_priority (t_metadata t))).
  { rewrite Ht. destruct Hp as [p Hp]. simpl. rewrite Hp. by eexists. }
  assert (Htype : t_type t = t_type base) by (by rewrite Ht).
  clearbody t. unfold Task.new. cbv beta iota zeta.
  change (o_priority no_options) with (@None PriorityArg).
  assert (Hsame : (Task.priority factory None t).2 = t).
  { unfold Task.priority. destruct Hpt as [p ->]. done. }
  rewrite Hsame. unfold Task.with_metadata at 1 2.
  cbn [t_metadata t_type t_id t_key t_data t_uid]. rewrite Htype.
  assert (Hsettled :
    Task.ensure_maxAttempts
      (Task.copy_defaults (Task.defaults factory (t_type base)) (t_metadata t))
    = t_metadata t).
  { rewrite Ht. simpl. by apply defaults_settle. }
  rewrite Hsettled. by destruct t.
Qed.

End ConstructorFacts.

(** ** Attempts *)

Section AttemptFacts.

Variable factory : Factory.

Lemma events_announced_app tr1 tr2 :
  events_announced (tr1 ++ tr2) = events_announced tr1 ++ events_announced tr2.
Proof. apply omap_app. Qed.

Lemma activate_spec t w :
  ∃ t' w',
    Task.activate t w = (Resolved t', w')
    ∧ t_metadata t'
      = Task.merge {| c_state := Some Active; c_progress := None;
                      c_attempts := Some (m_attempts (t_metadata t) + 1);
                      c_priority := None |} (t_metadata t)
    ∧ t_id t' = t_id t ∧ t_key t' = t_key t ∧ t_type t' = t_type t
    ∧ t_uid t' = t_uid t
    ∧ persisted (t_key t) w' = Some (JSON.metadata (t_metadata t'))
    ∧ trace w' = trace w
                 ++ [HSET (t_key t) "metadata"
                       (FMetadata (JSON.metadata (t_metadata t')))].
Proof.
  unfold Task.activate. rewrite info_spec. eexists _, _.
  split; [reflexivity|]. repeat split.
  unfold persisted, TransportRedis.hash_at. simpl.
  by rewrite lookup_insert_eq; simpl; rewrite lookup_insert_eq.
Qed.

(** X3: every [activate()] adds exactly one to the attempts: after [n]
    calls the task has [n] more attempts, all its other metadata but
    the state are as before, and from the first call on the state is
    active and the stored metadata is the metadata of the object, as
    JSON writes it. *)
Theorem activations_count n t w :
  ∃ t' w',
    activations n t w = (Resolved t', w')
    ∧ m_attempts (t_metadata t') = m_attempts (t_metadata t) + Z.of_nat n
    ∧ m_maxAttempts (t_metadata t') = m_maxAttempts (t_metadata t)
    ∧ m_priority (t_metadata t') = m_priority (t_metadata t)
    ∧ m_progress (t_metadata t') = m_progress (t_metadata t)
    ∧ ((0 < n)%nat →
       m_state (t_metadata t') = Active
       ∧ persisted (t_key t) w' = Some (JSON.metadata (t_metadata t'))).
Proof.
  revert t w. induction n as [|n IH]; intros t w.
  - exists t, w. split; [done|]. split; [simpl; lia|].
    do 3 (split; [done|]). intros Hpos. inversion Hpos.
  - simpl. unfold then_.
    destruct (activate_spec t w)
      as (t1 & w1 & -> & Hm & _ & Hkey & _ & _ & Hstored & _).
    destruct (IH t1 w1) as (t' & w' & Hrun & Hattempts & Hmax & Hp & Hprogress & Hactive).
    exists t', w'. split; [done|].
    rewrite Hattempts, Hmax, Hp, Hprogress, Hm. simpl.
    split; [lia|]. do 3 (split; [done|]). intros _.
    destruct n as [|n].
    + simpl in Hrun. injection Hrun as <- <-. split; [by rewrite Hm|done].
    + rewrite <- Hkey. apply Hactive. lia.
Qed.

Lemma events_announced_announcement event args t :
  events_announced [announcement factory event args t] = [event].
Proof. unfold announcement. by destruct (_ || _). Qed.

(** A failed attempt with attempts left. *)
Lemma failed_attempt_retries err t w a k p :
  m_attempts (t_metadata t) = a →
  m_maxAttempts (t_metadata t) = Some k →
  m_priority (t_metadata t) = Some (PriorityOf p) →
  a + 1 < k →
  ∃ t' w',
    failed_attempt factory err t w = (Resolved t', w')
    ∧ m_attempts (t_metadata t') = a + 1
    ∧ m_maxAttempts (t_metadata t') = Some k
    ∧ m_priority (t_metadata t') = Some (PriorityOf p)
    ∧ m_state (t_metadata t') = Active
    ∧ events_announced (trace w') = events_announced (trace w) ++ ["retry"].
Proof.
  intros Ha Hk Hp Hleft. unfold failed_attempt, then_.
  destruct (activate_spec t w) as (t1 & w1 & -> & Hm & _ & _ & _ & _ & _ & Htrace).
  assert (Hk1 : m_maxAttempts (t_metadata t1) = Some k) by (by rewrite Hm).
  assert (Hp1 : m_priority (t_metadata t1) = Some (PriorityOf p)) by (by rewrite Hm).
  assert (Ha1 : m_attempts (t_metadata t1) = a + 1) by (rewrite Hm; simpl; lia).
  unfold Task.failure. rewrite Hk1, Ha1.
  rewrite (proj2 (Z.ltb_lt _ _) Hleft).
  unfold then_. rewrite announce_spec by done.
  rewrite (queue_spec factory _ p) by done.
  eexists _, _. split; [reflexivity|].
  do 3 (split; [done|]). split; [by rewrite Hm|].
  rewrite queued_trace. simpl. rewrite Htrace, !events_announced_app.
  rewrite events_announced_announcement. simpl. by rewrite !app_nil_r.
Qed.

(** A failed attempt with no attempt left. *)
Lemma failed_attempt_finalizes err t w a k :
  m_attempts (t_metadata t) = a →
  m_maxAttempts (t_metadata t) = Some k →
  k ≤ a + 1 →
  ∃ t' w',
    failed_attempt factory err t w = (Resolved t', w')
    ∧ m_attempts (t_metadata t') = a + 1
    ∧ m_state (t_metadata t') = Failure
    ∧ m_progress (t_metadata t') = None
    ∧ (err = None → m_error (t_metadata t') = Some "Unknown error")
    ∧ events_announced (trace w') = events_announced (trace w) ++ ["failure"].
Proof.
  intros Ha Hk Hnone. unfold failed_attempt, then_.
  destruct (activate_spec t w) as (t1 & w1 & -> & Hm & _ & _ & _ & _ & _ & Htrace).
  assert (Hk1 : m_maxAttempts (t_metadata t1) = Some k) by (by rewrite Hm).
  assert (Ha1 : m_attempts (t_metadata t1) = a + 1) by (rewrite Hm; simpl; lia).
  unfold Task.failure. rewrite Hk1, Ha1.
  rewrite (proj2 (Z.ltb_ge _ _) Hnone).
  unfold then_. rewrite announce_spec by done.
  unfold Task.deactivate, resolve.
  destruct (finalize_spec factory Failure None (Some (default "Unknown error" err)) t1
              (log (announcement factory "failure" [] t1) w1))
    as (w' & -> & Htrace').
  eexists _, w'. split; [reflexivity|]. simpl.
  split; [done|]. do 2 (split; [done|]). split; [by intros ->|].
  rewrite Htrace'. simpl. rewrite Htrace, !events_announced_app.
  rewrite events_announced_announcement. simpl.
  unfold finalize_effects. rewrite !events_announced_app.
  destruct (m_removeAfter (t_metadata t1)); simpl; by rewrite !app_nil_r.
Qed.

Lemma failed_attempts_until_last err n :
  ∀ t w a k p,
    m_attempts (t_metadata t) = a →
    m_maxAttempts (t_metadata t) = Some k →
    m_priority (t_metadata t) = Some (PriorityOf p) →
    a + Z.of_nat (S n) = k →
    ∃ t' w',
      failed_attempts factory err (S n) t w = (Resolved t', w')
      ∧ m_attempts (t_metadata t') = k
      ∧ m_state (t_metadata t') = Failure
      ∧ (err = None → m_error (t_metadata t') = Some "Unknown error")
      ∧ events_announced (trace w')
        = events_announced (trace w) ++ repeat "retry" n ++ ["failure"].
Proof.
  induction n as [|n IH]; intros t w a k p Ha Hk Hp Hrounds.
  - destruct (failed_attempt_finalizes err t w a k Ha Hk ltac:(lia))
      as (t' & w' & Hrun & Ha' & Hstate & _ & Herror & Hevents).
    exists t', w'. simpl. unfold then_. rewrite Hrun.
    split; [done|]. split; [lia|]. by repeat split.
  - destruct (failed_attempt_retries err t w a k p Ha Hk Hp ltac:(lia))
      as (t1 & w1 & Hrun & Ha1 & Hk1 & Hp1 & _ & Hevents1).
    destruct (IH t1 w1 (a + 1) k p Ha1 Hk1 Hp1 ltac:(lia))
      as (t' & w' & Hrest & Ha' & Hstate & Herror & Hevents).
    exists t', w'.
    change (failed_attempts factory err (S (S n)) t w)
      with (then_ (failed_attempt factory err t)
              (failed_attempts factory err (S n)) w).
    unfold then_ at 1. rewrite Hrun.
    split; [done|]. do 3 (split; [done|]).
    rewrite Hevents, Hevents1. simpl. by rewrite <- app_assoc.
Qed.

(** X4: a task that has not been attempted, with [maxAttempts = k],
    goes through [k] failed attempts (each an [activate()] followed by
    [failure(err)]) like this: the first [k - 1] announce [retry], the
    last announces [failure] and leaves the task with state failure
    and [attempts = k] (and the message Unknown error when no error
    was given). *)
Theorem failed_attempts_exhaust err t w k p :
  m_attempts (t_metadata t) = 0 →
  m_maxAttempts (t_metadata t) = Some k →
  m_priority (t_metadata t) = Some (PriorityOf p) →
  0 < k →
  ∃ t' w',
    failed_attempts factory err (Z.to_nat k) t w = (Resolved t', w')
    ∧ m_attempts (t_metadata t') = k
    ∧ m_state (t_metadata t') = Failure
    ∧ (err = None → m_error (t_metadata t') = Some "Unknown error")
    ∧ events_announced (trace w')
      = events_announced (trace w)
        ++ repeat "retry" (Z.to_nat k - 1) ++ ["failure"].
Proof.
  intros Ha Hk Hp Hpos.
  destruct (Z.to_nat k) as [|n] eqn:Hn; [lia|].
  replace (S n - 1)%nat with n by lia.
  apply (failed_attempts_until_last err n t w 0 k p); auto. lia.
Qed.

End AttemptFacts.

Lemma failed_attempts_exhaust_witness :
  let t := Sample.email "1" None (Sample.with_maxAttempts 3) in
  ∃ t' w',
    failed_attempts Sample.factory None (Z.to_nat 3) t empty_world
    = (Resolved t', w')
    ∧ m_attempts (t_metadata t') = 3
    ∧ m_state (t_metadata t') = Failure
    ∧ (@None string = None → m_error (t_metadata t') = Some "Unknown error")
    ∧ events_announced (trace w')
      = events_announced (trace empty_world)
        ++ repeat "retry" (Z.to_nat 3 - 1) ++ ["failure"].
Proof.
  apply (failed_attempts_exhaust Sample.factory None
           (Sample.email "1" None (Sample.with_maxAttempts 3)) empty_world 3 0);
    [reflexivity|reflexivity|reflexivity|lia].
Defined.

(** ** The end of a task *)

Section EndFacts.

Variable factory : Factory.

Lemma timers_app tr1 tr2 : timers (tr1 ++ tr2) = timers tr1 ++ timers tr2.
Proof. apply omap_app. Qed.

(** X5: [finalize] gives the uid back: whatever the state it records,
    the uid of the task is no longer in the reservations of its type
    afterwards; so it is after [success()]. *)
Theorem finalize_releases_uid state progress err t uid w :
  t_uid t = Some uid →
  TransportRedis.hash_at (Keys.uidKey factory (t_type t))
    (store (Task.finalize factory state progress err t w).2) !! uid = None
  ∧ TransportRedis.hash_at (Keys.uidKey factory (t_type t))
      (store (Task.success factory t w).2) !! uid = None.
Proof.
  intros Huid.
  assert (Hfinalize : ∀ state progress err w0,
    TransportRedis.hash_at (Keys.uidKey factory (t_type t))
      (store (Task.finalize factory state progress err t w0).2) !! uid = None).
  { intros state0 progress0 err0 w0.
    unfold Task.finalize, Task.expireFunction. rewrite Huid.
    destruct (m_removeAfter (t_metadata t)) as [expires|] eqn:Hexpires; simpl;
      rewrite ?Hexpires; unfold then_; simpl.
    - destruct (TransportRedis.exists_key _ _); simpl;
        unfold TransportRedis.hash_at at 1; simpl;
        by rewrite lookup_insert_eq; simpl; rewrite lookup_delete_eq.
    - unfold TransportRedis.hash_at at 1; simpl.
      by rewrite lookup_insert_eq; simpl; rewrite lookup_delete_eq. }
  split; [apply Hfinalize|].
  unfold Task.success, then_, Task.deactivate, resolve.
  destruct (Task.announce factory "success" [] t w) as [[[]|e|] w0] eqn:Hannounce;
    try (rewrite announce_spec in Hannounce by done; discriminate).
  apply Hfinalize.
Qed.

(** X6: the expiry of a finished task.  With [removeAfter] set,
    [finalize] sets one timer, [1000 * removeAfter] milliseconds, that
    announces [remove], and gives the record that time to live in
    seconds; without it there is no timer and no expiry. *)
Theorem finalize_expiry state progress err t w :
  t_key t ≠ Keys.uidKey factory (t_type t) →
  let w' := (Task.finalize factory state progress err t w).2 in
  match m_removeAfter (t_metadata t) with
  | Some seconds =>
      timers (trace w') = timers (trace w) ++ [(1000 * seconds, AnnounceRemove (t_id t))]
      ∧ expires (store w') !! t_key t = Some seconds
  | None =>
      timers (trace w') = timers (trace w)
      ∧ expires (store w') = expires (store w)
  end.
Proof.
  intros Hkey. cbv zeta.
  unfold Task.finalize, Task.expireFunction.
  destruct (m_removeAfter (t_metadata t)) as [seconds|] eqn:Hseconds; simpl;
    rewrite ?Hseconds; unfold then_; simpl.
  - rewrite !timers_app. simpl. rewrite !app_nil_r. split; [done|].
    unfold TransportRedis.exists_key. simpl.
    rewrite lookup_insert_ne by done. rewrite lookup_insert_eq. simpl.
    by rewrite lookup_insert_eq.
  - rewrite !timers_app. simpl. by rewrite !app_nil_r.
Qed.

(** X7: [remove()] deletes the record and nothing else: after a
    [save()] and a [remove()] there is no hash under the task's key,
    but its id is still in the notify list and in the sorted set of its
    type, and its uid is still reserved. *)
Theorem remove_leaves_queue_entries t w r w1 :
  t_key t ≠ Keys.typeKey factory (t_type t) →
  t_key t ≠ Keys.waitKey factory (t_type t) →
  t_key t ≠ Keys.uidKey factory (t_type t) →
  Task.save factory t w = (Resolved r, w1) →
  ∃ w2,
    Task.remove factory t w1 = (Resolved ROk, w2)
    ∧ hashes (store w2) !! t_key t = None
    ∧ t_id t ∈ TransportRedis.list_at (Keys.typeKey factory (t_type t)) (store w2)
    ∧ t_id t ∈ Redis.members
                 (TransportRedis.zset_at (Keys.waitKey factory (t_type t)) (store w2))
    ∧ (∀ uid, t_uid t = Some uid →
         TransportRedis.hash_at (Keys.uidKey factory (t_type t)) (store w2) !! uid
         = Some (FString (t_id t))).
Proof.
  intros Htype Hwait Huid Hsave.
  pose proof Hsave as Hsaved.
  apply save_queues in Hsave as (p & Hp & _ & _ & _ & Hlist & Hzset).
  apply save_inv in Hsaved as (p' & _ & _ & Hw1).
  assert (Hl : t_id t ∈ TransportRedis.list_at (Keys.typeKey factory (t_type t))
                         (store w1)).
  { rewrite Hlist. apply elem_of_app. right. by apply list_elem_of_singleton. }
  assert (Hz : t_id t ∈ Redis.members
                 (TransportRedis.zset_at (Keys.waitKey factory (t_type t)) (store w1))).
  { rewrite Hzset. apply RedisFacts.zadd_member. }
  unfold Task.remove, then_. rewrite announce_spec by done.
  eexists. split; [reflexivity|]. simpl.
  split; [apply lookup_delete_eq|].
  unfold TransportRedis.list_at, TransportRedis.zset_at, TransportRedis.hash_at in *.
  simpl. rewrite !lookup_delete_ne by done.
  do 2 (split; [done|]).
  intros uid Huid'. rewrite Hw1.
  pose proof (reserved_uid factory t uid (queued factory t p' (stored t w)) Huid')
    as Hreserved.
  by unfold TransportRedis.hash_at in Hreserved.
Qed.

End EndFacts.

(** ** The transport *)

Section TransportFacts.

(** X8: [sortedPop] on a well-formed sorted set.  From an empty set it
    resolves to nothing and leaves the set empty; otherwise it resolves
    to a member that ranks before every member left, that member is
    gone, every other entry is still there and the set is still well
    formed. *)
Theorem sortedPop_takes_first_rank key w :
  let z := TransportRedis.zset_at key (store w) in
  Redis.zset_wf z →
  ∃ reply w',
    TransportRedis.sortedPop key w = (Resolved reply, w')
    ∧ let z' := TransportRedis.zset_at key (store w') in
      Redis.zset_wf z'
      ∧ match z with
        | [] => reply = RNil ∧ z' = []
        | e :: _ =>
            reply = RStr e.2
            ∧ (e.2 ∉ Redis.members z')
            ∧ (∀ e', e' ∈ z' → Redis.entry_lt e e')
            ∧ (∀ e', e' ∈ z ↔ e' = e ∨ e' ∈ z')
        end.
Proof.
  intros z Hwf. unfold TransportRedis.sortedPop, then_, read. simpl.
  eexists _, _. split; [reflexivity|]. simpl. rewrite zset_at_set_zset.
  fold z. split; [by apply RedisFacts.zremrangebyrank_wf|].
  destruct z as [|e z']; simpl; [done|].
  destruct Hwf as [Hsorted Hnodup].
  apply StronglySorted_inv in Hsorted as [_ Hall].
  unfold Redis.members in Hnodup. rewrite fmap_cons in Hnodup.
  apply NoDup_cons in Hnodup as [Hfresh _].
  split; [done|]. split; [done|]. split.
  - by apply Forall_forall.
  - intros e'. apply elem_of_cons.
Qed.

Lemma foldl_zadd_wf members z :
  Redis.zset_wf z →
  Redis.zset_wf (foldl (λ z e, Redis.zadd e.1 e.2 z) z members).
Proof.
  revert z. induction members as [|e members IH]; intros z Hwf; [done|].
  simpl. by apply IH, RedisFacts.zadd_wf.
Qed.

Lemma elem_of_foldl_zadd members :
  ∀ z e,
    NoDup members.*2 →
    e ∈ foldl (λ z e, Redis.zadd e.1 e.2 z) z members
    ↔ e ∈ members ∨ (e ∈ z ∧ e.2 ∉ members.*2).
Proof.
  induction members as [|e0 members IH]; intros z e Hnodup; simpl.
  - split.
    + intros Hin. right. split; [done|]. apply not_elem_of_nil.
    + intros [Hin|[Hin _]]; [by apply elem_of_nil in Hin|done].
  - destruct e0 as [s0 m0].
    rewrite fmap_cons in Hnodup. apply NoDup_cons in Hnodup as [Hfresh Hnodup].
    rewrite IH by done. rewrite RedisFacts.elem_of_zadd.
    rewrite elem_of_cons. simpl in *. rewrite not_elem_of_cons.
    split.
    + intros [Hin|[[->|[Hin Hne]] Hout]]; [by left; right|by left; left|].
      right. by repeat split.
    + intros [[->|Hin]|[Hin [Hne Hout]]]; [|by left|].
      * right. split; [by left|done].
      * right. split; [by right|done].
Qed.

(** X9: [sortedAdd] negates every score, so that after adding members
    with different names to an empty sorted set, [sortedPop] resolves
    to a member that was added with the greatest score. *)
Theorem sortedAdd_then_sortedPop_greatest key members w :
  TransportRedis.zset_at key (store w) = [] →
  NoDup members.*2 →
  members ≠ [] →
  ∃ w' score member,
    (TransportRedis.sortedAdd key members >>> TransportRedis.sortedPop key) w
    = (Resolved (RStr member), w')
    ∧ (score, member) ∈ members
    ∧ ∀ e, e ∈ members → e.1 ≤ score.
Proof.
  intros Hempty Hnodup Hne.
  unfold then_ at 1, TransportRedis.sortedAdd, TransportRedis.sortedPop, then_, read.
  simpl. rewrite zset_at_set_zset, Hempty.
  set (z := foldl (λ (z : Redis.zset) (e : Z * string), Redis.zadd e.1 e.2 z)
              [] (TransportRedis.negate_scores members)).
  assert (Hwf : Redis.zset_wf z).
  { apply foldl_zadd_wf, RedisFacts.empty_wf. }
  assert (Hnegated : ∀ l, TransportRedis.negate_scores l
                          = (λ e, (-1 * e.1, e.2)) <$> l).
  { unfold TransportRedis.negate_scores.
    induction l as [|e0 l IH]; [done|]. simpl. by rewrite IH. }
  assert (Hin : ∀ e, e ∈ z ↔ ∃ e0, e0 ∈ members ∧ e = (-1 * e0.1, e0.2)).
  { intros e. unfold z. rewrite Hnegated, elem_of_foldl_zadd.
    - split.
      + intros [Hin0|[Hnil _]]; [|by apply elem_of_nil in Hnil].
        apply list_elem_of_fmap in Hin0 as (e0 & -> & Hin0). by exists e0.
      + intros (e0 & Hin0 & ->). left. apply list_elem_of_fmap. by exists e0.
    - by rewrite <- list_fmap_compose. }
  destruct z as [|[s m] z'] eqn:Hz.
  - destruct members as [|e0 members]; [done|].
    assert (Habsurd : (-1 * e0.1, e0.2) ∈ @nil (Z * string)).
    { apply Hin. exists e0. split; [by left|done]. }
    by apply elem_of_nil in Habsurd.
  - destruct (proj1 (Hin (s, m))) as (e0 & He0 & Heq); [by left|].
    injection Heq as -> ->.
    eexists _, e0.1, e0.2. split; [reflexivity|].
    split; [by destruct e0|].
    intros e He.
    assert (He' : (-1 * e.1, e.2) ∈ (-1 * e0.1, e0.2) :: z')
      by (apply Hin; by exists e).
    destruct Hwf as [Hsorted _].
    apply StronglySorted_inv in Hsorted as [_ Hall].
    rewrite Forall_forall in Hall.
    apply elem_of_cons in He' as [Heq|He'].
    + injection Heq as Heq _. lia.
    + destruct (Hall _ He') as [Hlt|[Heq _]]; simpl in *; lia.
Qed.

Lemma blockPops_drains key :
  ∀ l w,
    TransportRedis.list_at key (store w) = l →
    ∃ w',
      blockPops key (length l) w = (Resolved ((λ v, RList [key; v]) <$> l), w')
      ∧ TransportRedis.list_at key (store w') = [].
Proof.
  induction l as [|v l IH]; intros w Hl.
  - by exists w.
  - simpl. unfold then_ at 1, TransportRedis.blockPop, then_, read. simpl.
    rewrite Hl. simpl.
    edestruct (IH (with_store (TransportRedis.set_list key l) (log (BLPOP key) w)))
      as (w' & -> & Hempty).
    { simpl. apply list_at_set_list. }
    by exists w'.
Qed.

(** X10: a list is a queue: after [push] of some values, as many
    [blockPop] as the list has entries resolve to the old entries and
    then the pushed values, in their order; the list is then empty and
    one more [blockPop] with timeout 0 stays pending. *)
Theorem push_then_blockPops_in_order key values w :
  let l := TransportRedis.list_at key (store w) in
  ∃ w',
    (TransportRedis.push key values >>> blockPops key (length (l ++ values))) w
    = (Resolved ((λ v, RList [key; v]) <$> (l ++ values)), w')
    ∧ TransportRedis.list_at key (store w') = []
    ∧ (TransportRedis.blockPop key 0 w').1 = Pending.
Proof.
  intros l. unfold then_ at 1, TransportRedis.push, then_. simpl.
  edestruct (blockPops_drains key (l ++ values)
               (with_store (λ s, TransportRedis.set_list key
                                   (TransportRedis.list_at key s ++ values) s)
                  (log (RPUSH key values) w)))
    as (w' & -> & Hempty).
  { simpl. apply list_at_set_list. }
  exists w'. split; [done|]. split; [done|].
  unfold TransportRedis.blockPop, then_, read. simpl. by rewrite Hempty.
Qed.

End TransportFacts.

(** ** Listening and watching *)

Section WatchFacts.

Variable factory : Factory.

Lemma subscriptions_app tr1 tr2 :
  subscriptions (tr1 ++ tr2) = (subscriptions tr1 + subscriptions tr2)%nat.
Proof. unfold subscriptions. by rewrite omap_app, length_app. Qed.

Lemma published_app tr1 tr2 : published (tr1 ++ tr2) = published tr1 ++ published tr2.
Proof. apply omap_app. Qed.

Lemma watchTask_spec task w :
  ∃ w',
    Dispatcher.watchTask factory task w = (Resolved tt, w')
    ∧ store w' = store w
    ∧ subscribed w' = true
    ∧ tasks w' = (if bool_decide (t_id task = "") then tasks w
                  else <[t_id task := task]> (tasks w))
    ∧ subscriptions (trace w')
      = (subscriptions (trace w) + if subscribed w then 0 else 1)%nat
    ∧ published (trace w') = published (trace w).
Proof.
  unfold Dispatcher.watchTask, Dispatcher.subscribe, then_, read, update, effect.
  case_bool_decide; simpl; destruct (subscribed w) eqn:Hsubscribed; simpl;
    rewrite ?Hsubscribed; simpl;
    (eexists; split; [reflexivity|]); simpl;
    rewrite ?subscriptions_app, ?published_app; simpl;
    rewrite ?app_nil_r; repeat split; auto; lia.
Qed.

(** X11: [on(event, listener)] makes the event one that is broadcast:
    afterwards the event is among the task's broadcasts, exactly once
    if the broadcasts had no event twice, the dispatcher is subscribed
    and watches the task under its id, and [announce] of that event
    publishes the envelope, its arguments as JSON writes them, on the
    events channel instead of emitting locally. *)
Theorem on_makes_event_broadcast event args t w :
  event ≠ "" →
  t_id t ≠ "" →
  NoDup (m_broadcasts (t_metadata t)) →
  ∃ t' w1 w2,
    Task.on factory event t w = (Resolved t', w1)
    ∧ event ∈ m_broadcasts (t_metadata t')
    ∧ NoDup (m_broadcasts (t_metadata t'))
    ∧ subscribed w1 = true
    ∧ tasks w1 !! t_id t = Some t'
    ∧ Task.announce factory event args t' w1 = (Resolved tt, w2)
    ∧ published (trace w2)
      = published (trace w1)
        ++ [(Dispatcher.eventsKey factory,
             {| e_id := t_id t; e_event := event;
                e_args := JSON.args (AStr event :: args) |})].
Proof.
  intros Hevent Hid Hnodup. unfold Task.on.
  set (t' := if Task.broadcasts event t then t else _).
  assert (Hid' : t_id t' = t_id t) by (subst t'; by destruct (Task.broadcasts event t)).
  assert (Hin : event ∈ m_broadcasts (t_metadata t')).
  { subst t'. unfold Task.broadcasts.
    case_bool_decide; [done|]. simpl. apply elem_of_app. right.
    by apply list_elem_of_singleton. }
  assert (Hnodup' : NoDup (m_broadcasts (t_metadata t'))).
  { subst t'. unfold Task.broadcasts.
    case_bool_decide; [done|]. simpl.
    apply NoDup_app. split; [done|]. split; [|apply NoDup_singleton].
    intros x Hx Hx'. apply list_elem_of_singleton in Hx'. by subst x. }
  destruct (watchTask_spec t' w)
    as (w1 & Hwatch & _ & Hsubscribed & Htasks & _ & _).
  unfold then_. rewrite Hwatch.
  eexists t', w1, _. split; [reflexivity|].
  do 3 (split; [done|]).
  split.
  { rewrite Htasks, Hid'. rewrite bool_decide_eq_false_2 by done.
    apply lookup_insert_eq. }
  rewrite announce_spec by done. split; [reflexivity|].
  simpl. rewrite published_app. unfold announcement, Task.broadcasts.
  rewrite (bool_decide_eq_true_2 _ Hin), orb_true_r. simpl. by rewrite Hid'.
Qed.

(** X12: the events channel is subscribed to at most once: watching
    any number of tasks sends one SUBSCRIBE if the dispatcher was not
    subscribed and at least one task is watched, and none otherwise. *)
Theorem watch_all_subscribes_once tasks_ w :
  ∃ w',
    watch_all factory tasks_ w = (Resolved tt, w')
    ∧ subscribed w' = (subscribed w || negb (bool_decide (tasks_ = [])))
    ∧ subscriptions (trace w')
      = (subscriptions (trace w)
         + if subscribed w || bool_decide (tasks_ = []) then 0 else 1)%nat.
Proof.
  revert w. induction tasks_ as [|task rest IH]; intros w.
  - exists w. simpl. rewrite orb_false_r, orb_true_r. split; [done|].
    split; [done|lia].
  - destruct (watchTask_spec task w)
      as (w1 & Hwatch & _ & Hsubscribed & _ & Hcount & _).
    destruct (IH w1) as (w' & Hrest & Hsubscribed' & Hcount').
    assert (Hfalse : bool_decide (task :: rest = []) = false)
      by (by apply bool_decide_eq_false_2).
    exists w'. rewrite Hfalse. simpl. unfold then_ at 1. rewrite Hwatch.
    split; [done|].
    rewrite Hsubscribed', Hcount', Hcount, Hsubscribed. simpl.
    rewrite orb_true_r, orb_false_r.
    split; [done|]. destruct (subscribed w); lia.
Qed.

End WatchFacts.

(** ** Messages *)

Section MessageFacts.

Variable JSON_parse : string → Error + Json.
Variable emit : Task → list Arg → option Error.

Lemma lookup_watched key task w :
  tasks w !! key = Some task → Dispatcher.lookup key w = Dispatcher.Watched task.
Proof. unfold Dispatcher.lookup. by intros ->. Qed.

Lemma routeMessage_unwatched channel message id event args w :
  JSON_parse message = inr (JObject id event args) →
  tasks w !! Dispatcher.property_key id = None →
  Dispatcher.routeMessage JSON_parse emit channel message w
  = (Resolved tt,
     if bool_decide (Dispatcher.property_key id ∈ JS.Object_prototype)
     then log (ConsoleLog "Error"
                 (TypeError "Cannot read property 'apply' of undefined")) w
     else w).
Proof.
  intros Hparse Hnone.
  unfold Dispatcher.routeMessage, Dispatcher.routeMessage_try, then_, read,
    Dispatcher.lookup.
  rewrite Hparse, Hnone. by case_bool_decide.
Qed.

(** X13: a [remove] message for a watched task, whose listeners return
    normally, takes the task off the watch list and does nothing else;
    any later message for that id changes nothing: it has no effect at
    all, or, when the id is a name that every object inherits, only
    leaves a TypeError on the console. *)
Theorem routeMessage_remove_unwatches channel message id args task w :
  JSON_parse message = inr (JObject id (Some "remove") args) →
  tasks w !! Dispatcher.property_key id = Some task →
  emit task args = None →
  ∃ w',
    Dispatcher.routeMessage JSON_parse emit channel message w = (Resolved tt, w')
    ∧ tasks w' = delete (Dispatcher.property_key id) (tasks w)
    ∧ store w' = store w
    ∧ trace w' = trace w
    ∧ ∀ channel' message' event' args',
        JSON_parse message' = inr (JObject id event' args') →
        Dispatcher.routeMessage JSON_parse emit channel' message' w'
        = (Resolved tt,
           if bool_decide (Dispatcher.property_key id ∈ JS.Object_prototype)
           then log (ConsoleLog "Error"
                       (TypeError "Cannot read property 'apply' of undefined")) w'
           else w').
Proof.
  intros Hparse Hwatched Hemit.
  unfold Dispatcher.routeMessage, Dispatcher.routeMessage_try, then_, read.
  rewrite Hparse, (lookup_watched _ _ _ Hwatched), Hemit. simpl.
  eexists. split; [reflexivity|]. simpl. do 3 (split; [done|]).
  intros channel' message' event' args' Hparse'.
  apply (routeMessage_unwatched channel' message' id event' args'); [done|].
  simpl. apply lookup_delete_eq.
Qed.

(** X14: when a listener throws, its error goes to the console and
    the rest of the routing is skipped: the task stays on the watch
    list, even for a [remove] message, and no timer is set. *)
Theorem routeMessage_listener_throws channel message id event args task err w :
  JSON_parse message = inr (JObject id event args) →
  tasks w !! Dispatcher.property_key id = Some task →
  emit task args = Some err →
  Dispatcher.routeMessage JSON_parse emit channel message w
  = (Resolved tt, log (ConsoleLog "Error" err) w)
  ∧ tasks (log (ConsoleLog "Error" err) w) !! Dispatcher.property_key id = Some task
  ∧ timers (trace (log (ConsoleLog "Error" err) w)) = timers (trace w).
Proof.
  intros Hparse Hwatched Hemit.
  unfold Dispatcher.routeMessage, Dispatcher.routeMessage_try, then_, read.
  rewrite Hparse, (lookup_watched _ _ _ Hwatched), Hemit. simpl.
  split; [done|]. split; [done|].
  unfold timers. rewrite omap_app. simpl. by rewrite app_nil_r.
Qed.

(** X15: for a message that is not [remove], to a watched task whose
    listeners return normally, the watch list stays as it is; a timer
    that takes the task off the list after [removeAfter] seconds is
    set exactly when the event is [success] or [failure] and the task
    has a [removeAfter]; in every other case nothing happens. *)
Theorem routeMessage_schedules_unwatch channel message id event args task w :
  JSON_parse message = inr (JObject id event args) →
  tasks w !! Dispatcher.property_key id = Some task →
  emit task args = None →
  event ≠ Some "remove" →
  Dispatcher.routeMessage JSON_parse emit channel message w
  = (Resolved tt,
     match m_removeAfter (t_metadata task) with
     | Some seconds =>
         if bool_decide (event = Some "success" ∨ event = Some "failure")
         then log (SetTimeout (seconds * 1000)
                     (IgnoreTask (Dispatcher.property_key id))) w
         else w
     | None => w
     end).
Proof.
  intros Hparse Hwatched Hemit Hevent.
  unfold Dispatcher.routeMessage, Dispatcher.routeMessage_try, then_, read.
  rewrite Hparse, (lookup_watched _ _ _ Hwatched), Hemit. simpl.
  rewrite (bool_decide_eq_false_2 _ Hevent).
  destruct (m_removeAfter (t_metadata task)) as [seconds|]; [|done].
  destruct (decide (event = Some "success")) as [->|Hsuccess].
  { by rewrite (bool_decide_eq_true_2 (_ ∨ _)) by auto. }
  destruct (decide (event = Some "failure")) as [->|Hfailure].
  { by rewrite (bool_decide_eq_true_2 (_ ∨ _)) by auto. }
  rewrite (bool_decide_eq_false_2 (_ ∨ _)) by tauto.
  rewrite (bool_decide_eq_false_2 (event = Some "success")) by done.
  by rewrite (bool_decide_eq_false_2 (event = Some "failure")) by done.
Qed.

End MessageFacts.

(** ** More on the matching loop *)

Section LoopFacts.

Variable factory : Factory.

Lemma hand_out_teams teams :
  ∀ notify z, (hand_out teams notify z).*1 = take (length notify) teams.
Proof.
  induction teams as [|team teams IH]; intros notify z; simpl.
  - by rewrite take_nil.
  - destruct notify as [|v notify]; simpl; [done|]. by rewrite IH.
Qed.

(** X16: idle teams are served in the order they registered, one job
    each, for as many entries as the notify list has: when the teams of
    a type register while none is waiting and the loop runs, the teams
    that got a job are the first of them, as many as there were notify
    entries, and the i-th job is the member of rank i of the sorted set
    (undefined beyond its end). *)
Theorem idle_teams_served_in_order type team teams fuel w :
  ticks w = [] →
  default [] (waitlist w !! type) = [] →
  Forall (λ team, team_name team = type) (team :: teams) →
  (length (team :: teams) ≤ fuel)%nat →
  let notify := TransportRedis.list_at (Keys.typeKey factory type) (store w) in
  let z := TransportRedis.zset_at (Keys.waitKey factory type) (store w) in
  ∃ w1 jobs,
    delegate_all (team :: teams) w = (Resolved tt, w1)
    ∧ delegated (trace (Dispatcher.run factory fuel w1)) = delegated (trace w) ++ jobs
    ∧ jobs.*1 = take (length notify) (team :: teams)
    ∧ ∀ i team' job, jobs !! i = Some (team', job) → job = Redis.members z !! i.
Proof.
  intros Hticks Hidle Hteams Hfuel notify z.
  destruct (delegate_all_starts type team teams w Hidle Hteams)
    as (w1 & Hdelegate & Hstore & Htrace & Hticks1 & Hwait).
  pose proof (run_hands_out factory type (team :: teams) fuel w1) as Hrun.
  rewrite Hticks1, Hticks in Hrun.
  specialize (Hrun ltac:(done) eq_refl Hwait Hfuel).
  rewrite Htrace, Hstore in Hrun. fold notify z in Hrun.
  exists w1, (hand_out (team :: teams) notify z).
  split; [done|]. split; [done|]. split; [apply hand_out_teams|].
  intros i team' job Hjob. by apply hand_out_lookup in Hjob as (_ & _ & ->).
Qed.

(** X17: a task queued twice before it is taken has two notify
    entries and one rank: after a [save()] and a second [queue()] of the
    same task into an empty queue, the first idle team gets the id and
    the second gets an undefined id. *)
Theorem queued_twice_hands_out_undefined t w r r' w1 w2 team1 team2 fuel :
  ticks w = [] →
  default [] (waitlist w !! t_type t) = [] →
  TransportRedis.list_at (Keys.typeKey factory (t_type t)) (store w) = [] →
  TransportRedis.zset_at (Keys.waitKey factory (t_type t)) (store w) = [] →
  team_name team1 = t_type t →
  team_name team2 = t_type t →
  (2 ≤ fuel)%nat →
  Task.save factory t w = (Resolved r, w1) →
  Task.queue factory t w1 = (Resolved r', w2) →
  ∃ w3,
    delegate_all [team1; team2] w2 = (Resolved tt, w3)
    ∧ delegated (trace (Dispatcher.run factory fuel w3))
      = delegated (trace w) ++ [(team1, Some (t_id t)); (team2, None)].
Proof.
  intros Hticks Hidle Hlist Hzset Hname1 Hname2 Hfuel Hsave Hqueue.
  apply save_queues in Hsave
    as (p & Hp & Hticks1 & Hwait1 & Htrace1 & Hlist1 & Hzset1).
  rewrite (queue_returns factory t p w1 Hp) in Hqueue. injection Hqueue as _ <-.
  pose proof (queued_list factory t p w1) as Hlist2.
  pose proof (queued_zset factory t p w1) as Hzset2.
  pose proof (queued_trace factory t p w1) as Htrace2.
  rewrite Hlist1, Hlist in Hlist2. rewrite Hzset1, Hzset in Hzset2.
  assert (Hz : Redis.zadd (-1 * p) (t_id t) (Redis.zadd (-1 * p) (t_id t) [])
               = [(-1 * p, t_id t)]).
  { unfold Redis.zadd. simpl. by rewrite String.eqb_refl. }
  rewrite Hz in Hzset2.
  destruct (delegate_all_starts (t_type t) team1 [team2] (queued factory t p w1))
    as (w3 & Hdelegate & Hstore & Htrace & Hticks3 & Hwait3).
  { unfold queued, ranked. simpl. by rewrite Hwait1. }
  { by repeat constructor. }
  pose proof (run_hands_out factory (t_type t) [team1; team2] fuel w3) as Hrun.
  assert (Hticks2 : ticks (queued factory t p w1) = []).
  { unfold queued, ranked. simpl. by rewrite Hticks1. }
  rewrite Hticks3, Hticks2 in Hrun.
  specialize (Hrun ltac:(done) eq_refl Hwait3 Hfuel).
  rewrite Htrace, Hstore, Hlist2, Hzset2, Htrace2, delegated_app, Htrace1 in Hrun.
  exists w3. split; [done|]. rewrite Hrun. simpl. by rewrite app_nil_r.
Qed.

(** X18: a pass of [getNextJob] that finds a notify entry but no idle
    team loses the job: the notify entry and the first rank of the
    sorted set are popped, nobody is handed the id and no further pass
    is scheduled; with no waitlist at all for the type the pass also
    rejects. *)
Theorem getNextJob_without_idle_team type w v l :
  TransportRedis.list_at (Keys.typeKey factory type) (store w) = v :: l →
  default [] (waitlist w !! type) = [] →
  let w' := (Dispatcher.getNextJob factory type w).2 in
  (Dispatcher.getNextJob factory type w).1
  = match waitlist w !! type with
    | Some _ => Resolved tt
    | None => Rejected (TypeError "Cannot read property 'length' of undefined")
    end
  ∧ TransportRedis.list_at (Keys.typeKey factory type) (store w') = l
  ∧ TransportRedis.zset_at (Keys.waitKey factory type) (store w')
    = tail (TransportRedis.zset_at (Keys.waitKey factory type) (store w))
  ∧ delegated (trace w') = delegated (trace w)
  ∧ ticks w' = ticks w.
Proof.
  intros Hlist Hidle. cbv zeta.
  unfold Dispatcher.getNextJob, sequence, TransportRedis.blockPop,
    TransportRedis.sortedPop, Dispatcher.runTask, then_, read.
  simpl. rewrite Hlist. simpl.
  destruct (waitlist w !! type) as [[|team rest]|] eqn:Hwait; simpl in *;
    [|done|];
    rewrite list_at_set_zset, list_at_set_list, zset_at_set_zset,
      !zset_at_set_list, !delegated_app; simpl; by rewrite !app_nil_r.
Qed.

End LoopFacts.

(** ** More on the progress setter *)

(** Comparisons of doubles, from their specification. *)
Module FloatFacts.

Import SpecFloat FloatOps.

Lemma Prim2SF_nan x : is_nan x = true ↔ Prim2SF x = S754_nan.
Proof.
  unfold Prim2SF. destruct (is_nan x); [done|].
  split; [done|].
  destruct (is_zero x); [done|]. destruct (is_infinity x); [done|].
  destruct (Z.frexp x) as [r e].
  destruct (shr_fexp _ _ _ _ _) as [shr e'].
  by destruct (shr_m shr).
Qed.

Lemma is_nan_eq x : is_nan x = true → x = nan.
Proof.
  intros Hnan. apply FloatAxioms.Prim2SF_inj.
  by rewrite (proj1 (Prim2SF_nan x) Hnan).
Qed.

Lemma compare_100_nan x : JS.compare_100 x = None ↔ is_nan x = true.
Proof.
  rewrite Prim2SF_nan. unfold JS.compare_100.
  change (Prim2SF 100) with (S754_finite false 7036874417766400 (-46)).
  destruct (Prim2SF x) as [s|s| |s m e]; simpl; done.
Qed.

Lemma ltb100 x :
  (100 <? x)%float = match JS.compare_100 x with Some Lt => true | _ => false end.
Proof. by rewrite FloatAxioms.ltb_spec. Qed.

Lemma leb100 x :
  (100 <=? x)%float = match JS.compare_100 x with Some (Lt | Eq) => true | _ => false end.
Proof. by rewrite FloatAxioms.leb_spec. Qed.

Lemma eqb100 x :
  (100 =? x)%float = match JS.compare_100 x with Some Eq => true | _ => false end.
Proof. by rewrite FloatAxioms.eqb_spec. Qed.

(** [Math.min(x, 100)] equals 100 from 100 on, and is [x] below 100
    and for NaN. *)
Lemma Math_min_100 x :
  if (100 <=? x)%float
  then (100 =? JS.Math_min x JS.hundred)%float = true
  else JS.Math_min x JS.hundred = x
       ∧ (100 =? JS.Math_min x JS.hundred)%float = false.
Proof.
  unfold JS.Math_min, JS.hundred.
  change (is_nan 100) with false. rewrite orb_false_r.
  pose proof (compare_100_nan x) as Hnan.
  rewrite leb100, ltb100, !eqb100 in *.
  destruct (JS.compare_100 x) as [[]|] eqn:Hcmp;
    (destruct (is_nan x) eqn:Hx; [try discriminate (proj2 Hnan eq_refl)|]).
  - destruct (get_sign x); [by rewrite Hcmp|done].
  - done.
  - by rewrite Hcmp.
  - split; [|done]. symmetry. by apply is_nan_eq.
  - by discriminate (proj1 Hnan eq_refl).
Qed.

(** A division by zero: the signs of the dividend and of the zero
    decide; a dividend that is zero or NaN gives NaN. *)
Lemma div_by_zero (x : float) (negative : bool) :
  let zero := if negative then (-0)%float else 0%float in
  let above := if negative then (x <? 0)%float else (0 <? x)%float in
  let below := if negative then (0 <? x)%float else (x <? 0)%float in
  (x / zero)%float
  = if above then infinity else if below then neg_infinity else nan.
Proof.
  cbv zeta. apply FloatAxioms.Prim2SF_inj.
  rewrite FloatAxioms.div_spec, !FloatAxioms.ltb_spec.
  change (Prim2SF 0) with (S754_zero false).
  destruct negative.
  - change (Prim2SF (-0)) with (S754_zero true).
    destruct (Prim2SF x) as [[]|[]| |[] m e]; reflexivity.
  - change (Prim2SF 0) with (S754_zero false).
    destruct (Prim2SF x) as [[]|[]| |[] m e]; reflexivity.
Qed.

End FloatFacts.

Section ProgressFacts.

Variable factory : Factory.

Lemma progress_set_finalizes num den t w :
  (100 =? normalized num den)%float = true →
  ∃ t' w',
    progress_set factory num den t w = (Resolved t', w')
    ∧ m_state (t_metadata t') = Success
    ∧ m_progress (t_metadata t') = Some JS.hundred.
Proof.
  intros Hfull. unfold progress_set, Task.progress.
  assert (Hnormalized :
    match den with
    | None => JS.Math_min num JS.hundred
    | Some den => JS.Math_min (100 * num / den)%float JS.hundred
    end = normalized num den) by done.
  rewrite Hnormalized, Hfull. unfold then_. rewrite announce_spec by done.
  destruct (finalize_spec factory Success (Some JS.hundred) None t
    (log (announcement factory "progress" [ANum (normalized num den)] t) w))
    as (w' & -> & _).
  by eexists _, w'.
Qed.

Lemma progress_set_updates num den t w :
  (100 =? normalized num den)%float = false →
  ∃ t' w',
    progress_set factory num den t w = (Resolved t', w')
    ∧ m_state (t_metadata t') = m_state (t_metadata t)
    ∧ m_progress (t_metadata t') = Some (normalized num den)
    ∧ persisted (t_key t) w' = Some (JSON.metadata (t_metadata t')).
Proof.
  intros Hpart. unfold progress_set, Task.progress.
  assert (Hnormalized :
    match den with
    | None => JS.Math_min num JS.hundred
    | Some den => JS.Math_min (100 * num / den)%float JS.hundred
    end = normalized num den) by done.
  rewrite Hnormalized, Hpart. unfold then_. rewrite announce_spec by done.
  rewrite info_spec. eexists _, _. split; [reflexivity|].
  do 2 (split; [done|]).
  unfold persisted, TransportRedis.hash_at. simpl.
  by rewrite lookup_insert_eq; simpl; rewrite lookup_insert_eq.
Qed.

(** X19: [progress(value)] completes the task exactly from 100 on: for
    a value of 100 or more (Infinity included) the task is finalized
    with state success and progress exactly 100; for any other value,
    below 100 or NaN, the state stays what it was, the value itself,
    however low, is the progress of the object, and the record holds
    it as JSON writes it: [null] when it is NaN or -Infinity. *)
Theorem progress_completes_from_100 num t w :
  ∃ t' w',
    progress_set factory num None t w = (Resolved t', w')
    ∧ if (100 <=? num)%float
      then m_state (t_metadata t') = Success
           ∧ m_progress (t_metadata t') = Some JS.hundred
      else m_state (t_metadata t') = m_state (t_metadata t)
           ∧ m_progress (t_metadata t') = Some num
           ∧ persisted (t_key t) w' = Some (JSON.metadata (t_metadata t'))
           ∧ m_progress (JSON.metadata (t_metadata t')) = JSON.number num.
Proof.
  pose proof (FloatFacts.Math_min_100 num) as Hmin.
  destruct (100 <=? num)%float.
  - by apply progress_set_finalizes.
  - destruct Hmin as [Hsame Hpart].
    destruct (progress_set_updates num None t w Hpart)
      as (t' & w' & Hrun & Hstate & Hprogress & Hstored).
    change (normalized num None) with (JS.Math_min num JS.hundred) in Hprogress.
    rewrite Hsame in Hprogress.
    exists t', w'. do 4 (split; [done|]).
    simpl. by rewrite Hprogress.
Qed.

(** X20: with a total that is zero the division decides, by the signs
    of [100 * value] and of the zero.  When the quotient is Infinity it
    is clamped to 100 and the task completes with state success.
    Otherwise the state stays what it was and the progress of the
    object is -Infinity, or NaN when [100 * value] is zero or NaN; the
    record then holds [null]. *)
Theorem progress_of_zero_total num (negative : bool) t w :
  let total := if negative then (-0)%float else 0%float in
  let product := (100 * num)%float in
  let above := if negative then (product <? 0)%float else (0 <? product)%float in
  let below := if negative then (0 <? product)%float else (product <? 0)%float in
  ∃ t' w',
    progress_set factory num (Some total) t w = (Resolved t', w')
    ∧ if above
      then m_state (t_metadata t') = Success
           ∧ m_progress (t_metadata t') = Some JS.hundred
      else m_state (t_metadata t') = m_state (t_metadata t)
           ∧ m_progress (t_metadata t')
             = Some (if below then neg_infinity else nan)
           ∧ persisted (t_key t) w' = Some (JSON.metadata (t_metadata t'))
           ∧ m_progress (JSON.metadata (t_metadata t')) = None.
Proof.
  cbv zeta.
  pose proof (FloatFacts.div_by_zero (100 * num)%float negative) as Hdiv.
  cbv zeta in Hdiv.
  assert (Hnormalized :
    normalized num (Some (if negative then (-0)%float else 0%float))
    = JS.Math_min
        (if (if negative then (100 * num <? 0)%float else (0 <? 100 * num)%float)
         then infinity
         else if (if negative then (0 <? 100 * num)%float
                  else (100 * num <? 0)%float)
              then neg_infinity else nan) JS.hundred).
  { unfold normalized. by rewrite Hdiv. }
  destruct (if negative then (100 * num <? 0)%float else (0 <? 100 * num)%float).
  - apply progress_set_finalizes. by rewrite Hnormalized.
  - destruct (progress_set_updates num
                (Some (if negative then (-0)%float else 0%float)) t w)
      as (t' & w' & Hrun & Hstate & Hprogress & Hstored).
    { rewrite Hnormalized. by destruct (if negative then _ else _). }
    rewrite Hnormalized in Hprogress.
    exists t', w'. split; [done|]. split; [done|].
    assert (Hmin : ∀ b : bool,
      JS.Math_min (if b then neg_infinity else nan) JS.hundred
      = if b then neg_infinity else nan) by (by intros []).
    rewrite Hmin in Hprogress.
    split; [done|]. split; [done|].
    simpl. rewrite Hprogress. by destruct (if negative then _ else _).
Qed.

End ProgressFacts.

(** [progress(value, 0)] at 1, 0 and -1. *)
Example progress_of_zero_total_values :
  normalized 1 (Some 0%float) = 100%float
  ∧ normalized 0 (Some 0%float) = nan
  ∧ normalized (-1) (Some 0%float) = neg_infinity
  ∧ normalized 1 (Some (-0)%float) = neg_infinity.
Proof. repeat split; vm_compute; reflexivity. Qed.

(** ** Connections *)

Example split_colon_parts :
  Transport.split_colon "rediscloud:secret" = ["rediscloud"; "secret"]
  ∧ Transport.split_colon "rediscloud" = ["rediscloud"]
  ∧ Transport.split_colon ":a:b" = [""; "a"; "b"].
Proof. by vm_compute. Qed.

(** X21: [createConnection] calls [done] once, with the connection,
    when the constructor returns; when the constructor throws it calls
    [done] twice: first with the error, then once more as for a
    success, with no connection.  The constructor throws exactly when
    the uri setting is not a string, or is a string without auth
    part. *)
Theorem createConnection_done_calls settings :
  Transport.done_calls (Transport.createConnection settings)
  = match Transport.TransportRedis_new settings with
    | inr connection => [(None, Some connection)]
    | inl err => [(Some err, None); (None, None)]
    end
  ∧ ((∃ err, Transport.TransportRedis_new settings = inl err)
     ↔ Transport.s_uri settings = Some Transport.UriOther
       ∨ ∃ parts, Transport.s_uri settings = Some (Transport.UriString parts)
                  ∧ Transport.url_auth parts = None).
Proof.
  split.
  - unfold Transport.createConnection, Transport.done_calls.
    destruct (Transport.TransportRedis_new settings) as [err|connection];
      simpl; [done|].
    by destruct (Transport.c_password connection).
  - unfold Transport.TransportRedis_new.
    destruct (Transport.s_uri settings) as [[parts|]|]; simpl.
    + destruct (Transport.url_auth parts) as [auth|] eqn:Hauth.
      * split; [by intros [? ?]|].
        intros [?|(parts' & [= <-] & Hnone)]; [done|congruence].
      * split; [|by eexists]. intros _. right. by exists parts.
    + split; [by left|by eexists].
    + split; [by intros [? ?]|]. by intros [?|(? & ? & _)].
Qed.

(** ** Instances *)

Lemma finalize_releases_uid_witness :
  let t := Sample.email "1" (Some "welcome-1") no_options in
  let w := (Task.save Sample.factory t empty_world).2 in
  TransportRedis.hash_at (Keys.uidKey Sample.factory (t_type t)) (store w)
    !! "welcome-1" = Some (FString "1")
  ∧ TransportRedis.hash_at (Keys.uidKey Sample.factory (t_type t))
      (store (Task.finalize Sample.factory Failure None None t w).2)
      !! "welcome-1" = None
  ∧ TransportRedis.hash_at (Keys.uidKey Sample.factory (t_type t))
      (store (Task.success Sample.factory t w).2) !! "welcome-1" = None.
Proof.
  split; [vm_compute; reflexivity|].
  apply (finalize_releases_uid Sample.factory Failure None None
           (Sample.email "1" (Some "welcome-1") no_options) "welcome-1").
  reflexivity.
Defined.

Lemma finalize_expiry_witness :
  let t := Examples.watched_task in
  let w' := (Task.finalize Sample.factory Success (Some JS.hundred) None t
               empty_world).2 in
  timers (trace w') = [(5000, AnnounceRemove "1")]
  ∧ expires (store w') !! t_key t = Some 5.
Proof.
  apply (finalize_expiry Sample.factory Success (Some JS.hundred) None
           Examples.watched_task empty_world).
  discriminate.
Defined.

Lemma remove_leaves_queue_entries_witness :
  let t := Sample.email "1" (Some "welcome-1") no_options in
  let w1 := (Task.save Sample.factory t empty_world).2 in
  ∃ w2,
    Task.remove Sample.factory t w1 = (Resolved ROk, w2)
    ∧ hashes (store w2) !! t_key t = None
    ∧ t_id t ∈ TransportRedis.list_at (Keys.typeKey Sample.factory (t_type t)) (store w2)
    ∧ t_id t ∈ Redis.members
                 (TransportRedis.zset_at (Keys.waitKey Sample.factory (t_type t))
                    (store w2))
    ∧ (∀ uid, t_uid t = Some uid →
         TransportRedis.hash_at (Keys.uidKey Sample.factory (t_type t)) (store w2)
           !! uid
         = Some (FString (t_id t))).
Proof.
  apply (remove_leaves_queue_entries Sample.factory
           (Sample.email "1" (Some "welcome-1") no_options) empty_world
           [ROk; ROk; RSeq [RNil; ROk; ROk]; ROk]);
    [discriminate|discriminate|discriminate|vm_compute; reflexivity].
Defined.

Lemma sortedPop_takes_first_rank_witness :
  let key := Keys.waitKey Sample.factory "email" in
  let w := (save_both Sample.factory
              (Sample.email "1" None no_options)
              (Sample.email "2" None (Sample.with_priority (PName "high")))
              empty_world).2 in
  TransportRedis.zset_at key (store w) = [(-10, "2"); (0, "1")]
  ∧ ∃ reply w',
      TransportRedis.sortedPop key w = (Resolved reply, w')
      ∧ Redis.zset_wf (TransportRedis.zset_at key (store w')).
Proof.
  assert (Hz : TransportRedis.zset_at (Keys.waitKey Sample.factory "email")
                 (store (save_both Sample.factory
                           (Sample.email "1" None no_options)
                           (Sample.email "2" None (Sample.with_priority (PName "high")))
                           empty_world).2)
               = [(-10, "2"); (0, "1")])
    by (vm_compute; reflexivity).
  split; [exact Hz|].
  destruct (sortedPop_takes_first_rank (Keys.waitKey Sample.factory "email")
              (save_both Sample.factory
                 (Sample.email "1" None no_options)
                 (Sample.email "2" None (Sample.with_priority (PName "high")))
                 empty_world).2)
    as (reply & w' & Hpop & Hwf & _).
  - rewrite Hz. split.
    + repeat constructor.
    + unfold Redis.members. simpl. apply NoDup_cons. split.
      * intros Hin. apply list_elem_of_singleton in Hin. discriminate.
      * apply NoDup_singleton.
  - exists reply, w'. split; [exact Hpop|exact Hwf].
Defined.

Lemma sortedAdd_then_sortedPop_greatest_witness :
  ∃ w' score member,
    (TransportRedis.sortedAdd "ranks" [(1, "a"); (5, "b"); (3, "c")]
     >>> TransportRedis.sortedPop "ranks") empty_world
    = (Resolved (RStr member), w')
    ∧ (score, member) ∈ [(1, "a"); (5, "b"); (3, "c")]
    ∧ ∀ e, e ∈ [(1, "a"); (5, "b"); (3, "c")] → e.1 ≤ score.
Proof.
  apply (sortedAdd_then_sortedPop_greatest "ranks" [(1, "a"); (5, "b"); (3, "c")]
           empty_world).
  - reflexivity.
  - simpl. compute_done.
  - discriminate.
Defined.

Lemma on_makes_event_broadcast_witness :
  let t := Sample.email "1" None no_options in
  ∃ t' w1 w2,
    Task.on Sample.factory "success" t empty_world = (Resolved t', w1)
    ∧ "success" ∈ m_broadcasts (t_metadata t')
    ∧ NoDup (m_broadcasts (t_metadata t'))
    ∧ subscribed w1 = true
    ∧ tasks w1 !! t_id t = Some t'
    ∧ Task.announce Sample.factory "success" [] t' w1 = (Resolved tt, w2)
    ∧ published (trace w2)
      = published (trace w1)
        ++ [(Dispatcher.eventsKey Sample.factory,
             {| e_id := t_id t; e_event := "success";
                e_args := AStr "success" :: [] |})].
Proof.
  apply (on_makes_event_broadcast Sample.factory "success" []
           (Sample.email "1" None no_options) empty_world).
  - discriminate.
  - discriminate.
  - simpl. apply NoDup_singleton.
Defined.

Lemma routeMessage_remove_unwatches_witness :
  ∃ w',
    Dispatcher.routeMessage Examples.parse Examples.quiet "q:events" "remove"
      Examples.watching
    = (Resolved tt, w')
    ∧ tasks w' = delete (Dispatcher.property_key (Some "1")) (tasks Examples.watching)
    ∧ store w' = store Examples.watching
    ∧ trace w' = trace Examples.watching
    ∧ ∀ channel' message' event' args',
        Examples.parse message' = inr (JObject (Some "1") event' args') →
        Dispatcher.routeMessage Examples.parse Examples.quiet channel' message' w'
        = (Resolved tt, w').
Proof.
  apply (routeMessage_remove_unwatches Examples.parse Examples.quiet "q:events"
           "remove" (Some "1") [AStr "remove"] Examples.watched_task
           Examples.watching).
  - reflexivity.
  - vm_compute. reflexivity.
  - reflexivity.
Defined.

Lemma routeMessage_listener_throws_witness :
  Dispatcher.routeMessage Examples.parse Examples.throwing "q:events" "remove"
    Examples.watching
  = (Resolved tt, log (ConsoleLog "Error" (Thrown "listener")) Examples.watching)
  ∧ tasks (log (ConsoleLog "Error" (Thrown "listener")) Examples.watching)
      !! Dispatcher.property_key (Some "1") = Some Examples.watched_task
  ∧ timers (trace (log (ConsoleLog "Error" (Thrown "listener")) Examples.watching))
    = timers (trace Examples.watching).
Proof.
  apply (routeMessage_listener_throws Examples.parse Examples.throwing "q:events"
           "remove" (Some "1") (Some "remove") [AStr "remove"]
           Examples.watched_task (Thrown "listener") Examples.watching).
  - reflexivity.
  - vm_compute. reflexivity.
  - reflexivity.
Defined.

Lemma routeMessage_schedules_unwatch_witness :
  Dispatcher.routeMessage Examples.parse Examples.quiet "q:events" "success"
    Examples.watching
  = (Resolved tt, log (SetTimeout (5 * 1000) (IgnoreTask "1")) Examples.watching).
Proof.
  apply (routeMessage_schedules_unwatch Examples.parse Examples.quiet "q:events"
           "success" (Some "1") (Some "success") [AStr "success"]
           Examples.watched_task Examples.watching).
  - reflexivity.
  - vm_compute. reflexivity.
  - reflexivity.
  - discriminate.
Defined.

Lemma idle_teams_served_in_order_witness :
  let w := (save_both Sample.factory
              (Sample.email "1" None no_options)
              (Sample.email "2" None (Sample.with_priority (PName "high")))
              empty_world).2 in
  let notify := TransportRedis.list_at (Keys.typeKey Sample.factory "email") (store w) in
  let z := TransportRedis.zset_at (Keys.waitKey Sample.factory "email") (store w) in
  ∃ w1 jobs,
    delegate_all [Sample.team 1; Sample.team 2; Sample.team 3] w = (Resolved tt, w1)
    ∧ delegated (trace (Dispatcher.run Sample.factory 3 w1))
      = delegated (trace w) ++ jobs
    ∧ jobs.*1 = take (length notify) [Sample.team 1; Sample.team 2; Sample.team 3]
    ∧ ∀ i team' job, jobs !! i = Some (team', job) → job = Redis.members z !! i.
Proof.
  apply (idle_teams_served_in_order Sample.factory "email" (Sample.team 1)
           [Sample.team 2; Sample.team 3] 3).
  - reflexivity.
  - reflexivity.
  - repeat constructor.
  - simpl. lia.
Defined.

Lemma queued_twice_hands_out_undefined_witness :
  let t := Sample.email "1" None no_options in
  let w1 := (Task.save Sample.factory t empty_world).2 in
  let w2 := (Task.queue Sample.factory t w1).2 in
  ∃ w3,
    delegate_all [Sample.team 1; Sample.team 2] w2 = (Resolved tt, w3)
    ∧ delegated (trace (Dispatcher.run Sample.factory 2 w3))
      = delegated (trace empty_world)
        ++ [(Sample.team 1, Some (t_id t)); (Sample.team 2, None)].
Proof.
  apply (queued_twice_hands_out_undefined Sample.factory
           (Sample.email "1" None no_options) empty_world
           [RNil; ROk; RSeq [RNil; ROk; ROk]; RNil] (RSeq [RNil; ROk; ROk])
           (Task.save Sample.factory (Sample.email "1" None no_options)
              empty_world).2).
  - reflexivity.
  - reflexivity.
  - reflexivity.
  - reflexivity.
  - reflexivity.
  - reflexivity.
  - lia.
  - vm_compute. reflexivity.
  - vm_compute. reflexivity.
Defined.

Lemma getNextJob_without_idle_team_witness :
  let w := (Task.save Sample.factory (Sample.email "1" None no_options)
              empty_world).2 in
  let w' := (Dispatcher.getNextJob Sample.factory "email" w).2 in
  (Dispatcher.getNextJob Sample.factory "email" w).1
  = match waitlist w !! "email" with
    | Some _ => Resolved tt
    | None => Rejected (TypeError "Cannot read property 'length' of undefined")
    end
  ∧ TransportRedis.list_at (Keys.typeKey Sample.factory "email") (store w') = []
  ∧ TransportRedis.zset_at (Keys.waitKey Sample.factory "email") (store w')
    = tail (TransportRedis.zset_at (Keys.waitKey Sample.factory "email") (store w))
  ∧ delegated (trace w') = delegated (trace w)
  ∧ ticks w' = ticks w.
Proof.
  apply (getNextJob_without_idle_team Sample.factory "email"
           (Task.save Sample.factory (Sample.email "1" None no_options)
              empty_world).2 "1" []).
  - vm_compute. reflexivity.
  - reflexivity.
Defined.
